(** * Bakery: the [Hashmap] storage backend

    A shallow embedding of the [Hashmap] class of the Bakery key-value
    store, and the properties of its hashing, chaining and resizing.

    Modelling choices.
    - A JavaScript string is the list of its UTF-16 code units.
    - A [number] that holds an integer is a [Z].  The one arithmetic
      operation of the class whose result needs more than 53 bits, the
      multiplication in [#hash], is computed with the IEEE-754 binary64
      multiplication of the standard library ([SpecFloat.SFmul]).
    - The load factor [count / size] is an exact rational.  For a count
      below 2^52 the binary64 quotient compares with the binary64 literals
      [0.7] and [0.4] exactly as the rational compares with 7/10 and 2/5:
      the quotients nearest to a threshold differ from it by at least
      1/(10*size), far above half a unit in the last place.  Lemma
      [loadFactor_binary64_agrees] checks the agreement on all small tables.
    - A JavaScript array is a list of optional elements, [None] being a hole
      (an index below [length] that was never assigned and reads as
      [undefined]).  Writing past the end extends the array with holes.
    - The bucket returned by [#getBucket] is a reference into the bucket
      array; the model returns its index and the callers write through it.
    - [setItem], [#checkLoadFactor] and [#resize] call each other; the
      recursion is cut by a fuel counter on the nesting depth of [setItem].
    - [console.log] in [#resize] is kept as the list of the logged sizes.
    - Table sizes are integral and memory is unbounded: the [RangeError] of
      an array longer than 2^32 - 1 is outside the model. *)

From Stdlib Require Import ZArith QArith Qround String Ascii List Bool Lia.
From Stdlib Require Import Permutation Zmisc.
From Stdlib Require Import SpecFloat.
Import ListNotations.
Local Open Scope Z_scope.

(** ** Strings *)

Definition jsString := list Z.

Definition jsString_eq_dec : forall a b : jsString, {a = b} + {a <> b} :=
  list_eq_dec Z.eq_dec.

(** A literal with characters below U+0100. *)
Definition str (s : string) : jsString :=
  map (fun c => Z.of_nat (nat_of_ascii c)) (list_ascii_of_string s).

(** ** Numbers *)

Definition ToUint32 (x : Z) : Z := x mod 2 ^ 32.

Definition ToInt32 (x : Z) : Z :=
  let u := x mod 2 ^ 32 in if u <? 2 ^ 31 then u else u - 2 ^ 32.

Definition prec : Z := 53.
Definition emax : Z := 1024.

Definition number_of_Z (x : Z) : spec_float :=
  binary_normalize prec emax x 0 false.

(** The integer part of a binary64 value; NaN and the infinities give 0, as
    [ToUint32] does. *)
Definition Z_of_number (x : spec_float) : Z :=
  match x with
  | S754_finite s m e =>
      let a := if 0 <=? e then Z.pos m * 2 ^ e else Z.pos m / 2 ^ (- e) in
      if s then - a else a
  | _ => 0
  end.

(** [a * b] on numbers that hold integers. *)
Definition number_mul (a b : Z) : Z :=
  Z_of_number (SFmul prec emax (number_of_Z a) (number_of_Z b)).

(** ** Arrays with holes *)

Section JsArray.
Context {A : Type}.

Definition array_get (a : list (option A)) (i : nat) : option A :=
  match nth_error a i with
  | Some (Some x) => Some x
  | _ => None
  end.

Fixpoint array_set (a : list (option A)) (i : nat) (x : A) : list (option A) :=
  match i, a with
  | O, [] => [Some x]
  | O, _ :: rest => Some x :: rest
  | S i', [] => None :: array_set [] i' x
  | S i', y :: rest => y :: array_set rest i' x
  end.

(** [Array.prototype.flat] on an array of arrays: holes are skipped. *)
Fixpoint flat (a : list (option (list A))) : list A :=
  match a with
  | [] => []
  | None :: rest => flat rest
  | Some b :: rest => b ++ flat rest
  end.
End JsArray.

(** ** The class *)

Abbreviation Entry := (jsString * jsString)%type.
Abbreviation Bucket := (list Entry).

Record Hashmap := mkHashmap {
  size : Z;
  buckets : list (option Bucket);
  count : Z;
  console : list Z
}.

Definition loadFactor : Q := 7 # 10.
Definition initialSize : Z := 4.

Definition set_size (v : Z) (this : Hashmap) : Hashmap :=
  mkHashmap v (buckets this) (count this) (console this).
Definition set_buckets (v : list (option Bucket)) (this : Hashmap) : Hashmap :=
  mkHashmap (size this) v (count this) (console this).
Definition set_count (v : Z) (this : Hashmap) : Hashmap :=
  mkHashmap (size this) (buckets this) v (console this).
Definition console_log (v : Z) (this : Hashmap) : Hashmap :=
  mkHashmap (size this) (buckets this) (count this) (console this ++ [v]).

(** The result of a method call: a normal return, a [TypeError] thrown with
    the object left as it was at that point, or the fuel running out. *)
Inductive outcome (A : Type) : Type :=
| Return (a : A) (this : Hashmap)
| Throw (this : Hashmap)
| OutOfFuel.
Arguments Return {A} a this.
Arguments Throw {A} this.
Arguments OutOfFuel {A}.

(** [#new]: resets [count] and returns [size] fresh empty buckets; a
    length that is not positive gives the empty array.  [Array.from] throws
    a [RangeError] for a length of 2^32 or more, which takes the growth of a
    table whose size is 2^31 or more, or a size of 2^32 or more given to the
    constructor; the model allocates there too, so it is exact for the calls
    on a table whose size is below 2^31. *)
Definition new (size_arg : Z) (this : Hashmap) : list (option Bucket) * Hashmap :=
  (repeat (Some []) (Z.to_nat size_arg), set_count 0 this).

(** [constructor(size?)]: [size || this.#initialSize] takes the default for a
    missing argument and for 0. *)
Definition constructor (size_arg : option Z) : outcome unit :=
  let this := mkHashmap 0 [] 0 [] in
  let this :=
    set_size (match size_arg with
              | Some s => if s =? 0 then initialSize else s
              | None => initialSize
              end) this in
  let (b, this) := new (size this) this in
  Return tt (set_buckets b this).

(** [#hash]: the loop over the code units, then the reduction to a bucket
    index.  [hash ^= c] works on 32-bit signed integers, [hash *= FNV_PRIME]
    is a binary64 multiplication, [hash >>> 0] is [ToUint32]. *)
Definition FNV_PRIME : Z := 16777619.
Definition FNV_OFFSET_BASIS : Z := 2166136261.

Fixpoint hash_loop (hash : Z) (key : jsString) : Z :=
  match key with
  | [] => hash
  | c :: rest =>
      let hash := Z.lxor (ToInt32 hash) (ToInt32 c) in
      let hash := number_mul hash FNV_PRIME in
      let hash := ToUint32 hash in
      hash_loop hash rest
  end.

(** The value of the local [hash] when the loop ends. *)
Definition hash32 (key : jsString) : Z := hash_loop FNV_OFFSET_BASIS key.

(** [%] is the remainder that takes the sign of the dividend. *)
Definition hash (key : jsString) (this : Hashmap) : Z :=
  Z.rem (hash32 key) (size this).

(** [#getBucket]: the index of the bucket of [key], after a missing bucket
    has been allocated there. *)
Definition getBucket (key : jsString) (this : Hashmap) : nat * Hashmap :=
  let bucketIndex := Z.to_nat (hash key this) in
  match array_get (buckets this) bucketIndex with
  | None => (bucketIndex, set_buckets (array_set (buckets this) bucketIndex []) this)
  | Some _ => (bucketIndex, this)
  end.

(** The bucket behind the reference that [#getBucket] returned. *)
Definition bucket_at (bucketIndex : nat) (this : Hashmap) : Bucket :=
  match array_get (buckets this) bucketIndex with
  | Some b => b
  | None => []
  end.

(** The scan of [setItem]: the first entry with an equal key is replaced;
    [None] when the loop ends without a match. *)
Fixpoint bucket_replace (bucket : Bucket) (keyName keyValue : jsString) : option Bucket :=
  match bucket with
  | [] => None
  | (key, val) :: rest =>
      if jsString_eq_dec key keyName then Some ((keyName, keyValue) :: rest)
      else option_map (cons (key, val)) (bucket_replace rest keyName keyValue)
  end.

(** The scan of [getItem]. *)
Fixpoint bucket_find (bucket : Bucket) (keyName : jsString) : option jsString :=
  match bucket with
  | [] => None
  | (key, val) :: rest =>
      if jsString_eq_dec key keyName then Some val else bucket_find rest keyName
  end.

(** The scan of [removeItem]: [splice(i, 1)] at the first match. *)
Fixpoint bucket_splice (bucket : Bucket) (keyName : jsString) : option Bucket :=
  match bucket with
  | [] => None
  | (key, val) :: rest =>
      if jsString_eq_dec key keyName then Some rest
      else option_map (cons (key, val)) (bucket_splice rest keyName)
  end.

Definition Qgt_bool (x y : Q) : bool := negb (Qle_bool x y).
Definition Qlt_bool (x y : Q) : bool := negb (Qle_bool y x).

Section Rebuild.
(** The [setItem] that the rebuild calls back. *)
Variable setItem : jsString -> jsString -> Hashmap -> outcome unit.

(** [for (const [key, value] of bucket) this.setItem(key, value)] *)
Fixpoint reinsert_bucket (bucket : Bucket) (this : Hashmap) : outcome unit :=
  match bucket with
  | [] => Return tt this
  | (key, value) :: rest =>
      match setItem key value this with
      | Return _ this => reinsert_bucket rest this
      | other => other
      end
  end.

(** [for (const bucket of oldBuckets) ...]: the array iterator yields
    [undefined] at a hole, and iterating [undefined] throws. *)
Fixpoint reinsert (oldBuckets : list (option Bucket)) (this : Hashmap) : outcome unit :=
  match oldBuckets with
  | [] => Return tt this
  | None :: _ => Throw this
  | Some bucket :: rest =>
      match reinsert_bucket bucket this with
      | Return _ this => reinsert rest this
      | other => other
      end
  end.

Definition resize (newSize : Z) (this : Hashmap) : outcome unit :=
  let oldBuckets := buckets this in
  let this := set_size newSize this in
  let (b, this) := new newSize this in
  let this := set_buckets b this in
  let this := console_log newSize this in
  reinsert oldBuckets this.

Definition checkLoadFactor (this : Hashmap) : outcome unit :=
  let factorIncrease : Z := 2 in
  let currentLoadFactor : Q := (inject_Z (count this) / inject_Z (size this))%Q in
  if Qgt_bool currentLoadFactor loadFactor
  then resize (size this * factorIncrease) this
  else Return tt this.

Definition checkUnderLoadFactor (this : Hashmap) : outcome unit :=
  let factorDecrease : Q := 1 # 2 in
  let underLoadFactor : Q := 4 # 10 in
  let currentLoadFactor : Q := (inject_Z (count this) / inject_Z (size this))%Q in
  if Qlt_bool currentLoadFactor underLoadFactor && (10 <? size this)
  then resize (Qceiling (inject_Z (size this) * factorDecrease)%Q) this
  else Return tt this.

Definition setItem_body (keyName keyValue : jsString) (this : Hashmap) : outcome unit :=
  let (bucket, this) := getBucket keyName this in
  match bucket_replace (bucket_at bucket this) keyName keyValue with
  | Some b => Return tt (set_buckets (array_set (buckets this) bucket b) this)
  | None =>
      let b := bucket_at bucket this ++ [(keyName, keyValue)] in
      let this := set_buckets (array_set (buckets this) bucket b) this in
      let this := set_count (count this + 1) this in
      checkLoadFactor this
  end.

Definition removeItem_body (keyName : jsString) (this : Hashmap) : outcome unit :=
  let (bucket, this) := getBucket keyName this in
  match bucket_splice (bucket_at bucket this) keyName with
  | Some b =>
      let this := set_buckets (array_set (buckets this) bucket b) this in
      let this := set_count (count this - 1) this in
      checkUnderLoadFactor this
  | None => Return tt this
  end.
End Rebuild.

(** [fuel] bounds the depth of the calls of [setItem] from within [setItem]. *)
Fixpoint setItem (fuel : nat) (keyName keyValue : jsString) (this : Hashmap) : outcome unit :=
  match fuel with
  | O => OutOfFuel
  | S fuel => setItem_body (setItem fuel) keyName keyValue this
  end.

Definition getItem (keyName : jsString) (this : Hashmap) : option jsString * Hashmap :=
  let (bucket, this) := getBucket keyName this in
  (bucket_find (bucket_at bucket this) keyName, this).

Definition removeItem (fuel : nat) (keyName : jsString) (this : Hashmap) : outcome unit :=
  removeItem_body (setItem fuel) keyName this.

Definition clear (this : Hashmap) : Hashmap :=
  let (b, this) := new initialSize this in
  set_buckets b this.

Definition keyExists (keyName : jsString) (this : Hashmap) : bool * Hashmap :=
  let (r, this) := getItem keyName this in
  (match r with Some _ => true | None => false end, this).

Definition keys (this : Hashmap) : list jsString :=
  map fst (flat (buckets this)).

(** ** Reachable states

    The states of a [Hashmap] that a caller can observe: after construction
    and after any call of a public method, whether it returned or threw.
    [keys] reads the object and leaves it as it is. *)
Inductive reachable : Hashmap -> Prop :=
| reach_constructor size_arg this :
    constructor size_arg = Return tt this -> reachable this
| reach_setItem fuel k v this this' :
    reachable this -> setItem fuel k v this = Return tt this' -> reachable this'
| reach_setItem_throw fuel k v this this' :
    reachable this -> setItem fuel k v this = Throw this' -> reachable this'
| reach_getItem k this :
    reachable this -> reachable (snd (getItem k this))
| reach_removeItem fuel k this this' :
    reachable this -> removeItem fuel k this = Return tt this' -> reachable this'
| reach_removeItem_throw fuel k this this' :
    reachable this -> removeItem fuel k this = Throw this' -> reachable this'
| reach_clear this :
    reachable this -> reachable (clear this)
| reach_keyExists k this :
    reachable this -> reachable (snd (keyExists k this)).

(** A run of public calls from a fresh default table, for concrete
    scenarios. *)
Inductive call : Type :=
| SetItem (k v : string)
| GetItem (k : string)
| RemoveItem (k : string)
| Clear.

Definition perform (fuel : nat) (c : call) (this : Hashmap) : outcome unit :=
  match c with
  | SetItem k v => setItem fuel (str k) (str v) this
  | GetItem k => Return tt (snd (getItem (str k) this))
  | RemoveItem k => removeItem fuel (str k) this
  | Clear => Return tt (clear this)
  end.

Fixpoint perform_all (fuel : nat) (cs : list call) (o : outcome unit) : outcome unit :=
  match cs with
  | [] => o
  | c :: rest =>
      match o with
      | Return _ this => perform_all fuel rest (perform fuel c this)
      | other => other
      end
  end.

(** ** The 32-bit FNV-1a of the specification, for comparison with [hash32] *)

Fixpoint fnv1a_loop (hash : Z) (key : jsString) : Z :=
  match key with
  | [] => hash
  | code_unit :: rest =>
      let hash := Z.lxor hash code_unit in
      let hash := (hash * 16777619) mod 2 ^ 32 in
      fnv1a_loop hash rest
  end.

Definition fnv1a_32 (key : jsString) : Z := fnv1a_loop 2166136261 key.

(** ** Binary64 load factors, for comparison with the rational ones *)

Definition number_div (a b : Z) : spec_float :=
  SFdiv prec emax (number_of_Z a) (number_of_Z b).

(** The literals [0.7] and [0.4] are the binary64 values nearest to 7/10 and
    2/5. *)
Definition number_0_7 : spec_float := S754_finite false 6305039478318694 (-53).
Definition number_0_4 : spec_float := S754_finite false 7205759403792794 (-54).

Definition agree_at (c s : Z) : bool :=
  Bool.eqb (SFltb number_0_7 (number_div c s))
           (Qgt_bool (inject_Z c / inject_Z s)%Q loadFactor)
  && Bool.eqb (SFltb (number_div c s) number_0_4)
              (Qlt_bool (inject_Z c / inject_Z s)%Q (4 # 10)).

Definition agree_upto (n : nat) : bool :=
  forallb (fun s => forallb (fun c => agree_at (Z.of_nat c) (Z.of_nat (S s))) (seq 0 (S n)))
          (seq 0 n).

(** ** Predicates used by the properties *)

(** The number of entries held by the buckets. *)
Definition total (this : Hashmap) : Z := Z.of_nat (length (flat (buckets this))).

Record invariant (this : Hashmap) : Prop := {
  inv_count : count this = total this;
  inv_size : size this <> 0;
  inv_load : 0 < size this -> 10 * count this <= 7 * size this
}.

(** The tests of [#checkLoadFactor] and [#checkUnderLoadFactor] on integers. *)
Definition grow_due (c s : Z) : bool := (0 <? s) && (7 * s <? 10 * c).
Definition shrink_due (c s : Z) : bool := (10 * c <? 4 * s) && (10 <? s).

(** What a call leaves behind: [P] holds of the object after a return or a
    throw, and the fuel runs out only under [short]. *)
Definition ends (P : Hashmap -> Prop) (short : Prop) (o : outcome unit) : Prop :=
  match o with
  | Return _ this => P this
  | Throw this => P this
  | OutOfFuel => short
  end.

(** The same for a call that cannot throw. *)
Definition returns (P : Hashmap -> Prop) (short : Prop) (o : outcome unit) : Prop :=
  match o with
  | Return _ this => P this
  | Throw _ => False
  | OutOfFuel => short
  end.

(** The value that the scan of the bucket of [key] finds. *)
Definition stored (key : jsString) (this : Hashmap) : option jsString :=
  bucket_find (bucket_at (Z.to_nat (hash key this)) this) key.

(** The object after the two branches of [setItem], before the grow check. *)
Definition replaced (k v : jsString) (this : Hashmap) : Hashmap :=
  let (i, this) := getBucket k this in
  match bucket_replace (bucket_at i this) k v with
  | Some b => set_buckets (array_set (buckets this) i b) this
  | None => this
  end.

Definition pushed (k v : jsString) (this : Hashmap) : Hashmap :=
  let (i, this) := getBucket k this in
  let this := set_buckets (array_set (buckets this) i (bucket_at i this ++ [(k, v)])) this in
  set_count (count this + 1) this.

(** The object after the [splice] of [removeItem], before the shrink check. *)
Definition spliced (k : jsString) (this : Hashmap) : Hashmap :=
  let (i, this) := getBucket k this in
  match bucket_splice (bucket_at i this) k with
  | Some b => set_count (count this - 1) (set_buckets (array_set (buckets this) i b) this)
  | None => this
  end.

(** What [setItem] and [removeItem] leave behind. *)
Definition setItem_post (k : jsString) (this this' : Hashmap) : Prop :=
  invariant this' /\ count this' <= count this + 1 /\
  match stored k this with
  | Some _ =>
      size this' = size this /\ console this' = console this /\
      count this' = count this
  | None =>
      if grow_due (count this + 1) (size this)
      then size this' = size this * 2 /\
           console this' = console this ++ [size this * 2]
      else size this' = size this /\ console this' = console this /\
           count this' = count this + 1
  end.

(** A table rebuilt at size [n] from [c] entries, or rebuilt at [n] and then
    grown once, which takes more than 0.7 * [n] entries. *)
Definition rebuilt (base : list Z) (n c : Z) (this' : Hashmap) : Prop :=
  (size this' = n /\ console this' = base ++ [n]) \/
  (size this' = n * 2 /\ console this' = base ++ [n; n * 2] /\ 7 * n < 10 * c).

Definition removeItem_post (k : jsString) (this this' : Hashmap) : Prop :=
  invariant this' /\
  match stored k this with
  | Some _ =>
      if shrink_due (count this - 1) (size this)
      then rebuilt (console this) ((size this + 1) / 2) (count this - 1) this'
      else size this' = size this /\ console this' = console this /\
           count this' = count this - 1
  | None =>
      size this' = size this /\ console this' = console this /\
      count this' = count this
  end.

(** The sum of the lengths of the buckets. *)
Definition entry_count (this : Hashmap) : Z :=
  Z.of_nat (list_sum (map (fun slot => match slot with
                                       | Some bucket => length bucket
                                       | None => O
                                       end) (buckets this))).

(** The object that a run of calls on [new Hashmap()] leaves behind. *)
Definition run (cs : list call) : outcome unit := perform_all 2 cs (constructor None).

Definition state_of (o : outcome unit) : Hashmap :=
  match o with
  | Return _ this => this
  | Throw this => this
  | OutOfFuel => mkHashmap 0 [] 0 []
  end.

Definition after (cs : list call) : Hashmap := state_of (run cs).

(** The first value that the flattened table holds for [key]. *)
Definition find (key : jsString) (this : Hashmap) : option jsString :=
  bucket_find (flat (buckets this)) key.

(** Every entry sits in the bucket of its key, and no key occurs twice. *)
Record placed (this : Hashmap) : Prop := {
  placed_nodup : NoDup (map fst (flat (buckets this)));
  placed_index : forall i b k v,
      array_get (buckets this) i = Some b -> In (k, v) b ->
      Z.to_nat (hash k this) = i
}.

(** A [setItem] that keeps the entries placed and, when it returns, has
    stored the value under the key and nothing else. *)
Definition sound (setItem : jsString -> jsString -> Hashmap -> outcome unit) : Prop :=
  forall k v this,
    placed this ->
    match setItem k v this with
    | Return _ this' =>
        placed this' /\
        forall k', find k' this' = if jsString_eq_dec k' k then Some v else find k' this
    | Throw this' => placed this'
    | OutOfFuel => True
    end.

(** A bucket array without holes that is as long as [size] says. *)
Record dense (this : Hashmap) : Prop := {
  dense_size : 0 < size this;
  dense_length : length (buckets this) = Z.to_nat (size this);
  dense_slots : Forall (fun slot => slot <> None) (buckets this)
}.

(** A [setItem] that keeps a dense table dense and does not throw on it. *)
Definition steady (setItem : jsString -> jsString -> Hashmap -> outcome unit) : Prop :=
  forall k v this,
    dense this ->
    match setItem k v this with
    | Return _ this' => dense this'
    | Throw _ => False
    | OutOfFuel => True
    end.

(** The states of a table of positive size on which [clear] was never
    called. *)
Inductive uncleared : Hashmap -> Prop :=
| unc_constructor size_arg this :
    match size_arg with Some s => 0 <= s | None => True end ->
    constructor size_arg = Return tt this -> uncleared this
| unc_setItem fuel k v this this' :
    uncleared this -> setItem fuel k v this = Return tt this' -> uncleared this'
| unc_getItem k this :
    uncleared this -> uncleared (snd (getItem k this))
| unc_removeItem fuel k this this' :
    uncleared this -> removeItem fuel k this = Return tt this' -> uncleared this'
| unc_keyExists k this :
    uncleared this -> uncleared (snd (keyExists k this)).

(** ** Calls in sequence

    One public call on a table, whether it returns or throws, and any number
    of them. *)
Inductive step : Hashmap -> Hashmap -> Prop :=
| step_setItem fuel k v this this' :
    setItem fuel k v this = Return tt this' -> step this this'
| step_setItem_throw fuel k v this this' :
    setItem fuel k v this = Throw this' -> step this this'
| step_getItem k this : step this (snd (getItem k this))
| step_removeItem fuel k this this' :
    removeItem fuel k this = Return tt this' -> step this this'
| step_removeItem_throw fuel k this this' :
    removeItem fuel k this = Throw this' -> step this this'
| step_clear this : step this (clear this)
| step_keyExists k this : step this (snd (keyExists k this)).

Inductive evolves (this : Hashmap) : Hashmap -> Prop :=
| evolves_refl : evolves this this
| evolves_step mid this' : evolves this mid -> step mid this' -> evolves this this'.

(** The object that [new Hashmap()] builds. *)
Definition default_table : Hashmap := state_of (constructor None).

(** [P] holds of every integer from 0 to [n - 1]. *)
Definition all_below (n : Z) (P : Z -> bool) : bool :=
  fst (Z.iter n (fun s => (fst s && P (snd s), snd s + 1)) (true, 0)).

(** ** The classes in front of [Hashmap]

    [CentralisedStorage] keeps a [Set] of the keys beside the storage object
    that [#initialiseStorage] builds, and [Bakery] passes every call on to
    a [CentralisedStorage].  The storage object here is the [Hashmap] of the
    tag "hashmap", which is also what an unknown tag falls back to; the tags
    "local" and "session" wrap an object of the host and are outside the
    model. *)

(** The result of a call on an object of type [S]. *)
Inductive result (S A : Type) : Type :=
| Returned (a : A) (this : S)
| Threw (this : S)
| Starved.
Arguments Returned {S A} a this.
Arguments Threw {S A} this.
Arguments Starved {S A}.

(** A [Set<string>] is the list of its elements in insertion order. *)
Definition Set_has (s : list jsString) (key : jsString) : bool :=
  if in_dec jsString_eq_dec key s then true else false.

Definition Set_add (s : list jsString) (key : jsString) : list jsString :=
  if Set_has s key then s else s ++ [key].

Definition Set_delete (s : list jsString) (key : jsString) : list jsString :=
  filter (fun x => if jsString_eq_dec x key then false else true) s.

Module CentralisedStorage.

Record t := mk {
  storage : Hashmap;
  keyCache : list jsString
}.

(** [new CentralisedStorage("hashmap")] *)
Definition constructor : result t unit :=
  match constructor None with
  | Return _ h => Returned tt (mk h [])
  | Throw h => Threw (mk h [])
  | OutOfFuel => Starved
  end.

Definition setItem (fuel : nat) (key value : jsString) (this : t) : result t unit :=
  match setItem fuel key value (storage this) with
  | Return _ h => Returned tt (mk h (Set_add (keyCache this) key))
  | Throw h => Threw (mk h (keyCache this))
  | OutOfFuel => Starved
  end.

Definition getItem (key : jsString) (this : t) : option jsString * t :=
  if Set_has (keyCache this) key
  then let (r, h) := getItem key (storage this) in (r, mk h (keyCache this))
  else (None, this).

Definition removeItem (fuel : nat) (key : jsString) (this : t) : result t unit :=
  if Set_has (keyCache this) key
  then match removeItem fuel key (storage this) with
       | Return _ h => Returned tt (mk h (Set_delete (keyCache this) key))
       | Throw h => Threw (mk h (keyCache this))
       | OutOfFuel => Starved
       end
  else Returned tt this.

Definition clear (this : t) : t := mk (clear (storage this)) [].

Definition keyExists (key : jsString) (this : t) : bool :=
  Set_has (keyCache this) key.

(** [Array.from(this.#keyCache)] *)
Definition keys (this : t) : list jsString := keyCache this.

(** The states that returning calls lead to. *)
Inductive returned : t -> Prop :=
| ret_constructor this : constructor = Returned tt this -> returned this
| ret_setItem fuel k v this this' :
    returned this -> setItem fuel k v this = Returned tt this' -> returned this'
| ret_getItem k this : returned this -> returned (snd (getItem k this))
| ret_removeItem fuel k this this' :
    returned this -> removeItem fuel k this = Returned tt this' -> returned this'
| ret_clear this : returned this -> returned (clear this).

(** The same without [clear]. *)
Inductive never_cleared : t -> Prop :=
| nc_constructor this : constructor = Returned tt this -> never_cleared this
| nc_setItem fuel k v this this' :
    never_cleared this -> setItem fuel k v this = Returned tt this' ->
    never_cleared this'
| nc_getItem k this : never_cleared this -> never_cleared (snd (getItem k this))
| nc_removeItem fuel k this this' :
    never_cleared this -> removeItem fuel k this = Returned tt this' ->
    never_cleared this'.

End CentralisedStorage.

Module CS := CentralisedStorage.

Module Bakery.

Record t := mk { storage : CentralisedStorage.t }.

(** [new Bakery("hashmap")] *)
Definition constructor : result t unit :=
  match CentralisedStorage.constructor with
  | Returned _ s => Returned tt (mk s)
  | Threw s => Threw (mk s)
  | Starved => Starved
  end.

Definition set (fuel : nat) (key value : jsString) (this : t) : result t unit :=
  match CentralisedStorage.setItem fuel key value (storage this) with
  | Returned _ s => Returned tt (mk s)
  | Threw s => Threw (mk s)
  | Starved => Starved
  end.

Definition get (key : jsString) (this : t) : option jsString * t :=
  let (r, s) := CentralisedStorage.getItem key (storage this) in (r, mk s).

Definition remove (fuel : nat) (key : jsString) (this : t) : result t unit :=
  match CentralisedStorage.removeItem fuel key (storage this) with
  | Returned _ s => Returned tt (mk s)
  | Threw s => Threw (mk s)
  | Starved => Starved
  end.

Definition clear (this : t) : t := mk (CentralisedStorage.clear (storage this)).

Definition keys (this : t) : list jsString := CentralisedStorage.keys (storage this).

(** The states that returning calls lead to, with and without [clear]. *)
Inductive returned : t -> Prop :=
| ret_constructor this : constructor = Returned tt this -> returned this
| ret_set fuel k v this this' :
    returned this -> set fuel k v this = Returned tt this' -> returned this'
| ret_get k this : returned this -> returned (snd (get k this))
| ret_remove fuel k this this' :
    returned this -> remove fuel k this = Returned tt this' -> returned this'
| ret_clear this : returned this -> returned (clear this).

Inductive never_cleared : t -> Prop :=
| nc_constructor this : constructor = Returned tt this -> never_cleared this
| nc_set fuel k v this this' :
    never_cleared this -> set fuel k v this = Returned tt this' -> never_cleared this'
| nc_get k this : never_cleared this -> never_cleared (snd (get k this))
| nc_remove fuel k this this' :
    never_cleared this -> remove fuel k this = Returned tt this' -> never_cleared this'.

(** [set] for each key of a list, in order, with the same value. *)
Fixpoint set_all (fuel : nat) (ks : list jsString) (value : jsString) (this : t)
  : result t unit :=
  match ks with
  | [] => Returned tt this
  | key :: rest =>
      match set fuel key value this with
      | Returned _ this => set_all fuel rest value this
      | other => other
      end
  end.

End Bakery.

(** The hashmap behind a [Bakery]. *)
Definition table (b : Bakery.t) : Hashmap := CS.storage (Bakery.storage b).

(** The key cache lists the keys that the hashmap holds. *)
Record coherent (this : CentralisedStorage.t) : Prop := {
  coh_reachable : reachable (CentralisedStorage.storage this);
  coh_nodup : NoDup (CentralisedStorage.keyCache this);
  coh_keys : forall k, In k (CentralisedStorage.keyCache this) <->
                       find k (CentralisedStorage.storage this) <> None
}.

(** * Properties *)

(** ** Numbers *)

Lemma loadFactor_binary64_agrees : agree_upto 64 = true.
Proof. vm_compute. reflexivity. Qed.

Lemma number_0_7_nearest :
  number_div 7 10 = number_0_7 /\ number_div 2 5 = number_0_4.
Proof. split; vm_compute; reflexivity. Qed.


(** The three rational tests of the resize policy, on integers. *)
Lemma Qgt_loadFactor (c s : Z) :
  0 <= c -> s <> 0 ->
  Qgt_bool (inject_Z c / inject_Z s)%Q loadFactor = (0 <? s) && (7 * s <? 10 * c).
Proof.
  intros Hc Hs. unfold Qgt_bool, Qle_bool, loadFactor, Qdiv, Qmult, Qinv, inject_Z.
  destruct s as [|p|p]; [congruence| |]; cbn [Qnum Qden Z.ltb Z.compare andb];
    rewrite ?Pos.mul_1_l.
  - destruct (Z.leb_spec (c * 1 * 10) (7 * Z.pos p));
      destruct (Z.ltb_spec (7 * Z.pos p) (10 * c)); cbn; lia.
  - match goal with |- context [?a <=? ?b] => destruct (Z.leb_spec a b) end; cbn; lia.
Qed.

Lemma Qlt_underLoadFactor (c s : Z) :
  0 < s ->
  Qlt_bool (inject_Z c / inject_Z s)%Q (4 # 10) = (10 * c <? 4 * s).
Proof.
  intros Hs. unfold Qlt_bool, Qle_bool, Qdiv, Qmult, Qinv, inject_Z.
  destruct s as [|p|p]; try lia; cbn [Qnum Qden]; rewrite ?Pos.mul_1_l.
  destruct (Z.leb_spec (4 * Z.pos p) (c * 1 * 10));
    destruct (Z.ltb_spec (10 * c) (4 * Z.pos p)); cbn; lia.
Qed.

Lemma Qceiling_half (s : Z) :
  Qceiling (inject_Z s * (1 # 2))%Q = (s + 1) / 2.
Proof.
  unfold Qceiling, Qfloor, Qopp, Qmult, inject_Z. cbn [Qnum Qden].
  replace (Z.pos (1 * 2)) with 2 by reflexivity.
  pose proof (Z.div_mod (- (s * 1)) 2 ltac:(lia)).
  pose proof (Z.mod_pos_bound (- (s * 1)) 2 ltac:(lia)).
  pose proof (Z.div_mod (s + 1) 2 ltac:(lia)).
  pose proof (Z.mod_pos_bound (s + 1) 2 ltac:(lia)).
  lia.
Qed.


(** ** The range of the hash *)

Lemma hash_loop_range h key : 0 <= h < 2 ^ 32 -> 0 <= hash_loop h key < 2 ^ 32.
Proof.
  revert h. induction key as [|c rest IH]; intros h Hh; cbn [hash_loop]; auto.
  apply IH. unfold ToUint32. apply Z.mod_pos_bound. lia.
Qed.

Lemma hash32_range key : 0 <= hash32 key < 2 ^ 32.
Proof. apply hash_loop_range. unfold FNV_OFFSET_BASIS. lia. Qed.

(** The bucket index is never negative; for a positive size it is the
    modulo. *)
Lemma hash_index key this :
  0 <= hash key this /\ (0 < size this -> hash key this = hash32 key mod size this).
Proof.
  unfold hash. pose proof (hash32_range key) as H. split.
  - destruct (Z.eq_dec (size this) 0) as [E|E].
    + rewrite E. destruct (hash32 key); cbn; lia.
    + apply Z.rem_nonneg; lia.
  - intros Hs. apply Z.rem_mod_nonneg; lia.
Qed.

(** ** Arrays *)

Section JsArrayFacts.
Context {A : Type}.
Implicit Types (a : list (option (list A))) (b : list A).

Lemma array_get_set_same {B : Type} (a : list (option B)) i x :
  array_get (array_set a i x) i = Some x.
Proof.
  unfold array_get. revert a.
  induction i as [|i IH]; intros [|y a]; cbn; auto.
Qed.

Lemma array_get_set_other {B : Type} (a : list (option B)) i j x :
  i <> j -> array_get (array_set a i x) j = array_get a j.
Proof.
  unfold array_get. revert a j.
  induction i as [|i IH]; intros [|y a] [|j] Hij; cbn; try congruence.
  - now destruct j.
  - rewrite (IH [] j) by congruence. now destruct j.
  - apply IH. congruence.
Qed.

Lemma flat_length_set a i b :
  Z.of_nat (length (flat (array_set a i b))) =
  Z.of_nat (length (flat a))
  - Z.of_nat (length (match array_get a i with Some b0 => b0 | None => [] end))
  + Z.of_nat (length b).
Proof.
  unfold array_get. revert a.
  induction i as [|i IH]; intros [|[y|] a]; cbn [array_set flat nth_error];
    rewrite ?length_app; cbn [length]; try lia.
  - specialize (IH []). cbn in IH. destruct i; cbn in IH |- *; lia.
  - specialize (IH a). lia.
  - specialize (IH a). lia.
Qed.

Lemma flat_set_missing a i :
  array_get a i = None -> flat (array_set a i []) = flat a.
Proof.
  unfold array_get. revert a.
  induction i as [|i IH]; intros [|[y|] a]; cbn; intros H; try congruence.
  - apply (IH []). now destruct i.
  - f_equal. now apply IH.
  - now apply IH.
Qed.

Lemma flat_repeat_empty n : flat (repeat (Some (@nil A)) n) = [].
Proof. induction n; cbn; auto. Qed.
End JsArrayFacts.

(** ** Buckets *)

Lemma bucket_replace_find b k v :
  match bucket_replace b k v with
  | Some b' => length b' = length b /\ bucket_find b k <> None
  | None => bucket_find b k = None
  end.
Proof.
  induction b as [|[key val] rest IH]; cbn; auto.
  destruct (jsString_eq_dec key k); cbn.
  - split; congruence.
  - destruct (bucket_replace rest k v); cbn; intuition congruence.
Qed.

Lemma bucket_splice_find b k :
  match bucket_splice b k with
  | Some b' => length b = S (length b') /\ bucket_find b k <> None
  | None => bucket_find b k = None
  end.
Proof.
  induction b as [|[key val] rest IH]; cbn; auto.
  destruct (jsString_eq_dec key k); cbn.
  - split; congruence.
  - destruct (bucket_splice rest k); cbn; intuition congruence.
Qed.

(** ** Outcomes *)

Lemma returns_ends P short o : returns P short o -> ends P short o.
Proof. destruct o; cbn; tauto. Qed.

Lemma ends_weaken (P P' : Hashmap -> Prop) (short short' : Prop) o :
  (forall this, P this -> P' this) -> (short -> short') ->
  ends P short o -> ends P' short' o.
Proof. destruct o; cbn; auto. Qed.

Lemma returns_weaken (P P' : Hashmap -> Prop) (short short' : Prop) o :
  (forall this, P this -> P' this) -> (short -> short') ->
  returns P short o -> returns P' short' o.
Proof. destruct o; cbn; auto. Qed.

(** ** The steps of [setItem] and [removeItem] *)

Lemma total_nonneg this : 0 <= total this.
Proof. unfold total. lia. Qed.

Lemma getBucket_facts key this :
  let i := Z.to_nat (hash key this) in
  let this1 := snd (getBucket key this) in
  fst (getBucket key this) = i /\
  size this1 = size this /\ count this1 = count this /\
  console this1 = console this /\ total this1 = total this /\
  array_get (buckets this1) i = Some (bucket_at i this) /\
  bucket_at i this1 = bucket_at i this.
Proof.
  unfold getBucket, bucket_at, total.
  destruct (array_get (buckets this) (Z.to_nat (hash key this))) eqn:E;
    cbn [fst snd buckets set_buckets size count console].
  - rewrite E. auto 10.
  - rewrite array_get_set_same, flat_set_missing by assumption. auto 10.
Qed.

Lemma getItem_stored k this : fst (getItem k this) = stored k this.
Proof.
  unfold getItem, stored.
  destruct (getBucket_facts k this) as (Hi & _ & _ & _ & _ & _ & Hat).
  destruct (getBucket k this) as [i this1]; cbn [fst snd] in *. now subst i; rewrite Hat.
Qed.

Lemma setItem_body_step rec k v this :
  setItem_body rec k v this =
  match stored k this with
  | Some _ => Return tt (replaced k v this)
  | None => checkLoadFactor rec (pushed k v this)
  end.
Proof.
  unfold setItem_body, stored, replaced, pushed.
  destruct (getBucket_facts k this) as (Hi & _ & _ & _ & _ & _ & Hat).
  destruct (getBucket k this) as [i this1]; cbn [fst snd] in *. subst i.
  rewrite <- Hat.
  pose proof (bucket_replace_find (bucket_at (Z.to_nat (hash k this)) this1) k v) as Hr.
  destruct (bucket_replace _ k v) as [b'|].
  - destruct Hr as [_ Hr]. destruct (bucket_find _ k); congruence.
  - now rewrite Hr.
Qed.

Lemma setItem_step fuel k v this :
  setItem (S fuel) k v this =
  match stored k this with
  | Some _ => Return tt (replaced k v this)
  | None => checkLoadFactor (setItem fuel) (pushed k v this)
  end.
Proof. apply setItem_body_step. Qed.

Lemma removeItem_body_step rec k this :
  removeItem_body rec k this =
  match stored k this with
  | Some _ => checkUnderLoadFactor rec (spliced k this)
  | None => Return tt (snd (getBucket k this))
  end.
Proof.
  unfold removeItem_body, stored, spliced.
  destruct (getBucket_facts k this) as (Hi & _ & _ & _ & _ & _ & Hat).
  destruct (getBucket k this) as [i this1]; cbn [fst snd] in *. subst i.
  rewrite <- Hat.
  pose proof (bucket_splice_find (bucket_at (Z.to_nat (hash k this)) this1) k) as Hr.
  destruct (bucket_splice _ k) as [b'|].
  - destruct Hr as [_ Hr]. destruct (bucket_find _ k); [reflexivity | congruence].
  - now rewrite Hr.
Qed.

Lemma removeItem_step fuel k this :
  removeItem fuel k this =
  match stored k this with
  | Some _ => checkUnderLoadFactor (setItem fuel) (spliced k this)
  | None => Return tt (snd (getBucket k this))
  end.
Proof. apply removeItem_body_step. Qed.

Lemma replaced_facts k v this :
  size (replaced k v this) = size this /\
  count (replaced k v this) = count this /\
  console (replaced k v this) = console this /\
  total (replaced k v this) = total this.
Proof.
  unfold replaced.
  destruct (getBucket_facts k this) as (Hi & Hsz & Hcn & Hco & Ht & Hget & Hat).
  destruct (getBucket k this) as [i this1]; cbn [fst snd] in *. subst i.
  rewrite Hat.
  pose proof (bucket_replace_find (bucket_at (Z.to_nat (hash k this)) this) k v) as Hr.
  destruct (bucket_replace _ k v) as [b'|]; [|auto].
  destruct Hr as [Hlen _]. unfold total in *. cbn.
  rewrite flat_length_set, Hget. repeat split; auto; lia.
Qed.

Lemma pushed_facts k v this :
  size (pushed k v this) = size this /\
  count (pushed k v this) = count this + 1 /\
  console (pushed k v this) = console this /\
  total (pushed k v this) = total this + 1.
Proof.
  unfold pushed.
  destruct (getBucket_facts k this) as (Hi & Hsz & Hcn & Hco & Ht & Hget & Hat).
  destruct (getBucket k this) as [i this1]; cbn [fst snd] in *. subst i.
  rewrite Hat. unfold total in *. cbn.
  rewrite flat_length_set, Hget, length_app. cbn. repeat split; auto; lia.
Qed.

Lemma spliced_facts k this :
  stored k this <> None ->
  size (spliced k this) = size this /\
  count (spliced k this) = count this - 1 /\
  console (spliced k this) = console this /\
  total (spliced k this) = total this - 1.
Proof.
  unfold spliced, stored. intros Hst.
  destruct (getBucket_facts k this) as (Hi & Hsz & Hcn & Hco & Ht & Hget & Hat).
  destruct (getBucket k this) as [i this1]; cbn [fst snd] in *. subst i.
  rewrite Hat.
  pose proof (bucket_splice_find (bucket_at (Z.to_nat (hash k this)) this) k) as Hr.
  destruct (bucket_splice _ k) as [b'|]; [|congruence].
  destruct Hr as [Hlen _]. unfold total in *. cbn.
  rewrite flat_length_set, Hget. repeat split; auto; lia.
Qed.

(** ** The resize tests *)

Lemma checkLoadFactor_test setItem this :
  count this = total this -> size this <> 0 ->
  checkLoadFactor setItem this =
  if grow_due (count this) (size this)
  then resize setItem (size this * 2) this else Return tt this.
Proof.
  intros Hc Hs. unfold checkLoadFactor, grow_due.
  rewrite Qgt_loadFactor; auto. rewrite Hc. apply total_nonneg.
Qed.

Lemma checkUnderLoadFactor_test setItem this :
  checkUnderLoadFactor setItem this =
  if shrink_due (count this) (size this)
  then resize setItem ((size this + 1) / 2) this else Return tt this.
Proof.
  unfold checkUnderLoadFactor, shrink_due. rewrite Qceiling_half.
  destruct (Z.ltb_spec 10 (size this)).
  - rewrite Qlt_underLoadFactor by lia. reflexivity.
  - now rewrite !andb_false_r.
Qed.

Lemma grow_due_mono c c' s :
  c' <= c -> grow_due c s = false -> grow_due c' s = false.
Proof.
  unfold grow_due. intros Hc H.
  destruct (Z.ltb_spec 0 s); cbn [andb] in *; auto.
  apply Z.ltb_ge in H. apply Z.ltb_ge. lia.
Qed.

(** A smaller count stays below the grow threshold. *)
Ltac below H :=
  eapply grow_due_mono; [|exact H]; cbn [length]; rewrite ?length_app; lia.

Lemma grow_due_true c s : grow_due c s = true <-> 0 < s /\ 7 * s < 10 * c.
Proof. unfold grow_due. rewrite andb_true_iff, !Z.ltb_lt. tauto. Qed.

Lemma grow_due_false c s : grow_due c s = false <-> s <= 0 \/ 10 * c <= 7 * s.
Proof. unfold grow_due. rewrite andb_false_iff, !Z.ltb_ge. tauto. Qed.

Lemma shrink_due_true c s : shrink_due c s = true <-> 10 * c < 4 * s /\ 10 < s.
Proof. unfold shrink_due. rewrite andb_true_iff, !Z.ltb_lt. tauto. Qed.

(** ** [setItem] below the grow threshold *)

Lemma setItem_quiet fuel k v this :
  count this = total this -> size this <> 0 ->
  grow_due (count this + 1) (size this) = false ->
  returns (fun this' =>
             size this' = size this /\ console this' = console this /\
             count this' = total this' /\
             count this' = match stored k this with
                           | Some _ => count this
                           | None => count this + 1
                           end)
          (fuel = O) (setItem fuel k v this).
Proof.
  intros Hc Hs Hg. destruct fuel as [|fuel]; [reflexivity|].
  rewrite setItem_step. destruct (stored k this).
  - cbn. destruct (replaced_facts k v this) as (? & ? & ? & ?). repeat split; auto; lia.
  - destruct (pushed_facts k v this) as (Hsz & Hcn & Hco & Ht).
    rewrite checkLoadFactor_test by (try rewrite Hsz; auto; lia).
    rewrite Hsz, Hcn, Hg. cbn. repeat split; auto; lia.
Qed.

Lemma reinsert_bucket_quiet fuel b this :
  count this = total this -> size this <> 0 ->
  grow_due (count this + Z.of_nat (length b)) (size this) = false ->
  returns (fun this' =>
             size this' = size this /\ console this' = console this /\
             count this' = total this' /\
             count this <= count this' <= count this + Z.of_nat (length b))
          (fuel = O) (reinsert_bucket (setItem fuel) b this).
Proof.
  revert this. induction b as [|[key value] rest IH]; intros this Hc Hs Hg.
  - cbn. repeat split; auto; lia.
  - cbn [reinsert_bucket].
    pose proof (setItem_quiet fuel key value this Hc Hs) as H.
    specialize (H ltac:(below Hg)).
    destruct (setItem fuel key value this) as [[] this1| |]; cbn in H |- *; auto.
    destruct H as (Hsz & Hco & Hc1 & Hn).
    assert (count this <= count this1 <= count this + 1) by (destruct (stored key this); lia).
    specialize (IH this1 Hc1 ltac:(congruence)).
    rewrite Hsz in IH.
    specialize (IH ltac:(below Hg)).
    revert IH. apply returns_weaken; auto.
    intros this' (? & ? & ? & ?). cbn [length]. repeat split; try congruence; lia.
Qed.

Lemma reinsert_quiet fuel old this :
  count this = total this -> size this <> 0 ->
  grow_due (count this + Z.of_nat (length (flat old))) (size this) = false ->
  ends (fun this' =>
          size this' = size this /\ console this' = console this /\
          count this' = total this' /\
          count this <= count this' <= count this + Z.of_nat (length (flat old)))
       (fuel = O) (reinsert (setItem fuel) old this).
Proof.
  revert this. induction old as [|[b|] rest IH]; intros this Hc Hs Hg.
  - cbn. repeat split; auto; lia.
  - cbn [reinsert flat] in *. rewrite length_app in *.
    pose proof (reinsert_bucket_quiet fuel b this Hc Hs) as H.
    specialize (H ltac:(below Hg)).
    destruct (reinsert_bucket (setItem fuel) b this) as [[] this1| |]; cbn in H |- *;
      try tauto.
    destruct H as (Hsz & Hco & Hc1 & Hn).
    specialize (IH this1 Hc1 ltac:(congruence)).
    rewrite Hsz in IH.
    specialize (IH ltac:(below Hg)).
    revert IH. apply ends_weaken; auto.
    intros this' (? & ? & ? & ?). repeat split; try congruence; lia.
  - cbn. repeat split; auto; lia.
Qed.

(** ** The rebuild *)

(** The object when [#resize] starts to re-insert. *)
Lemma resize_start setItem newSize this :
  resize setItem newSize this =
  reinsert setItem (buckets this)
           (mkHashmap newSize (repeat (Some []) (Z.to_nat newSize)) 0
                      (console this ++ [newSize])).
Proof. reflexivity. Qed.

Lemma resize_quiet fuel newSize this :
  newSize <> 0 -> grow_due (total this) newSize = false ->
  ends (fun this' =>
          size this' = newSize /\ console this' = console this ++ [newSize] /\
          count this' = total this' /\ 0 <= count this' <= total this)
       (fuel = O) (resize (setItem fuel) newSize this).
Proof.
  intros Hn Hg. rewrite resize_start.
  set (fresh := mkHashmap _ _ _ _).
  assert (Hf : count fresh = total fresh).
  { unfold total. cbn. now rewrite flat_repeat_empty. }
  pose proof (reinsert_quiet fuel (buckets this) fresh Hf Hn Hg) as H.
  revert H. apply ends_weaken; auto.
Qed.

(** ** [setItem] in general *)

Lemma setItem_spec fuel k v this :
  invariant this ->
  ends (setItem_post k this) (fuel < 2)%nat (setItem fuel k v this).
Proof.
  intros [Hc Hs Hl]. unfold setItem_post.
  destruct fuel as [|fuel]; [cbn; lia|].
  rewrite setItem_step. destruct (stored k this).
  - cbn. destruct (replaced_facts k v this) as (Hsz & Hcn & Hco & Ht).
    repeat split; try congruence; try lia.
  - destruct (pushed_facts k v this) as (Hsz & Hcn & Hco & Ht).
    rewrite checkLoadFactor_test by (try rewrite Hsz; auto; lia).
    rewrite Hsz, Hcn.
    destruct (grow_due (count this + 1) (size this)) eqn:Hg.
    + apply grow_due_true in Hg. destruct Hg as [Hpos Hov].
      specialize (Hl Hpos).
      assert (Hq : grow_due (total (pushed k v this)) (size this * 2) = false).
      { apply grow_due_false. right. pose proof (total_nonneg this). lia. }
      pose proof (resize_quiet fuel (size this * 2) (pushed k v this) ltac:(lia) Hq) as H.
      revert H. apply ends_weaken; [|lia].
      intros this' (Hsz' & Hco' & Hc' & Hn). rewrite Hco in Hco'.
      repeat split; auto; try lia.
    + cbn. apply grow_due_false in Hg.
      repeat split; auto; try lia.
Qed.

(** ** The rebuild of a shrink *)

Lemma setItem_post_rebuilt base n c k this this1 :
  0 < n -> rebuilt base n c this -> count this + 1 <= c -> 10 * c <= 14 * n ->
  setItem_post k this this1 -> rebuilt base n c this1.
Proof.
  intros Hn Hr Hc Hb (_ & _ & H). unfold rebuilt in *.
  destruct (stored k this).
  - destruct H as (Hsz & Hco & _). rewrite Hsz, Hco. exact Hr.
  - destruct (grow_due (count this + 1) (size this)) eqn:Hg.
    + apply grow_due_true in Hg. destruct H as (Hsz & Hco).
      destruct Hr as [[Hs Hl]|[Hs Hl]]; [|lia].
      right. rewrite Hsz, Hco, Hs, Hl, <- app_assoc. repeat split; auto. lia.
    + destruct H as (Hsz & Hco & _). rewrite Hsz, Hco. exact Hr.
Qed.

Lemma reinsert_bucket_regrow fuel base n c b this :
  0 < n -> 10 * c <= 14 * n ->
  invariant this -> rebuilt base n c this ->
  count this + Z.of_nat (length b) <= c ->
  ends (fun this' =>
          invariant this' /\ rebuilt base n c this' /\
          count this' <= count this + Z.of_nat (length b))
       (fuel < 2)%nat (reinsert_bucket (setItem fuel) b this).
Proof.
  intros Hn Hc. revert this.
  induction b as [|[key value] rest IH]; intros this Hi Hr Hb.
  - cbn. split; [|split]; auto; lia.
  - cbn [reinsert_bucket]. cbn [length] in *.
    pose proof (setItem_spec fuel key value this Hi) as H.
    destruct (setItem fuel key value this) as [[] this1| this1 |];
      cbn [ends] in H |- *; auto.
    + pose proof (setItem_post_rebuilt base n c key this this1 Hn Hr ltac:(lia) Hc H)
        as Hr1.
      destruct H as (Hi1 & Hc1 & _).
      specialize (IH this1 Hi1 Hr1 ltac:(lia)).
      revert IH. apply ends_weaken; auto.
      intros this' (? & ? & ?). split; [|split]; auto; lia.
    + pose proof (setItem_post_rebuilt base n c key this this1 Hn Hr ltac:(lia) Hc H)
        as Hr1.
      destruct H as (Hi1 & Hc1 & _). split; [|split]; auto; lia.
Qed.

Lemma reinsert_regrow fuel base n c old this :
  0 < n -> 10 * c <= 14 * n ->
  invariant this -> rebuilt base n c this ->
  count this + Z.of_nat (length (flat old)) <= c ->
  ends (fun this' =>
          invariant this' /\ rebuilt base n c this' /\
          count this' <= count this + Z.of_nat (length (flat old)))
       (fuel < 2)%nat (reinsert (setItem fuel) old this).
Proof.
  intros Hn Hc. revert this.
  induction old as [|[b|] rest IH]; intros this Hi Hr Hb.
  - cbn. split; [|split]; auto; lia.
  - cbn [reinsert flat] in *. rewrite length_app in *.
    pose proof (reinsert_bucket_regrow fuel base n c b this Hn Hc Hi Hr ltac:(lia)) as H.
    destruct (reinsert_bucket (setItem fuel) b this) as [[] this1| this1 |];
      cbn [ends] in H |- *; auto.
    + destruct H as (Hi1 & Hr1 & Hc1).
      specialize (IH this1 Hi1 Hr1 ltac:(lia)).
      revert IH. apply ends_weaken; auto.
      intros this' (? & ? & ?). split; [|split]; auto; lia.
    + destruct H as (Hi1 & Hr1 & Hc1). split; [|split]; auto; lia.
  - cbn. split; [|split]; auto; lia.
Qed.

(** ** [removeItem] in general *)

Lemma getBucket_invariant k this :
  invariant this -> invariant (snd (getBucket k this)).
Proof.
  intros [Hc Hs Hl].
  destruct (getBucket_facts k this) as (_ & Hsz & Hcn & _ & Ht & _).
  split; rewrite ?Hsz, ?Hcn, ?Ht; auto.
Qed.

Lemma removeItem_spec fuel k this :
  invariant this ->
  ends (removeItem_post k this) (fuel < 2)%nat (removeItem fuel k this).
Proof.
  intros Hi. pose proof Hi as [Hc Hs Hl]. unfold removeItem_post.
  rewrite removeItem_step. destruct (stored k this) eqn:Hst.
  - destruct (spliced_facts k this ltac:(congruence)) as (Hsz & Hcn & Hco & Ht).
    rewrite checkUnderLoadFactor_test, Hsz, Hcn.
    destruct (shrink_due (count this - 1) (size this)) eqn:Hd.
    + apply shrink_due_true in Hd. destruct Hd as [Hlow Hbig].
      set (n := (size this + 1) / 2).
      assert (Hn : size this <= 2 * n <= size this + 1).
      { unfold n. pose proof (Z.div_mod (size this + 1) 2 ltac:(lia)).
        pose proof (Z.mod_pos_bound (size this + 1) 2 ltac:(lia)). lia. }
      rewrite resize_start, Hco.
      set (fresh := mkHashmap _ _ _ _).
      assert (Hf : invariant fresh).
      { split; cbn [fresh size count buckets]; [|lia|lia].
        unfold total. cbn [fresh buckets]. now rewrite flat_repeat_empty. }
      assert (Hr : rebuilt (console this) n (count this - 1) fresh) by (left; auto).
      pose proof (reinsert_regrow fuel (console this) n (count this - 1)
                    (buckets (spliced k this)) fresh ltac:(lia) ltac:(lia) Hf Hr) as H.
      fold (total (spliced k this)) in H. rewrite Ht in H. cbn [count fresh] in H.
      specialize (H ltac:(lia)).
      revert H. apply ends_weaken; auto. tauto.
    + cbn. repeat split; auto; try lia.
  - cbn. destruct (getBucket_facts k this) as (_ & Hsz & Hcn & Hco & _).
    split; auto using getBucket_invariant.
Qed.

(** ** The invariant holds in every reachable state *)

Lemma constructor_invariant size_arg this :
  constructor size_arg = Return tt this -> invariant this.
Proof.
  unfold constructor, new. cbn [fst snd]. intros H. injection H as <-.
  split; cbn [count size buckets set_buckets set_count set_size].
  - unfold total. cbn [buckets set_buckets]. now rewrite flat_repeat_empty.
  - destruct size_arg as [s|]; [|discriminate].
    destruct (Z.eqb_spec s 0); [discriminate | auto].
  - lia.
Qed.

Lemma clear_invariant this : invariant this -> invariant (clear this).
Proof.
  intros [Hc Hs Hl]. split; auto.
  cbn [clear new fst snd set_buckets set_count count size]. lia.
Qed.

Lemma keyExists_state k this : snd (keyExists k this) = snd (getItem k this).
Proof. unfold keyExists. now destruct (getItem k this). Qed.

Lemma getItem_state k this : snd (getItem k this) = snd (getBucket k this).
Proof. unfold getItem. now destruct (getBucket k this). Qed.

Lemma reachable_invariant this : reachable this -> invariant this.
Proof.
  induction 1 as [sz this H | fuel k v this this' _ IH H | fuel k v this this' _ IH H
                 | k this _ IH | fuel k this this' _ IH H | fuel k this this' _ IH H
                 | this _ IH | k this _ IH].
  - eapply constructor_invariant; eauto.
  - pose proof (setItem_spec fuel k v this IH) as P. rewrite H in P. apply P.
  - pose proof (setItem_spec fuel k v this IH) as P. rewrite H in P. apply P.
  - rewrite getItem_state. now apply getBucket_invariant.
  - pose proof (removeItem_spec fuel k this IH) as P. rewrite H in P. apply P.
  - pose proof (removeItem_spec fuel k this IH) as P. rewrite H in P. apply P.
  - now apply clear_invariant.
  - rewrite keyExists_state, getItem_state. now apply getBucket_invariant.
Qed.

(** ** The fuel does not change a result *)

Section FuelMono.
Variables f g : jsString -> jsString -> Hashmap -> outcome unit.
Hypothesis fg : forall k v this, f k v this <> OutOfFuel -> g k v this = f k v this.

Lemma reinsert_bucket_mono b this :
  reinsert_bucket f b this <> OutOfFuel ->
  reinsert_bucket g b this = reinsert_bucket f b this.
Proof.
  revert this. induction b as [|[key value] rest IH]; intros this; cbn; auto.
  intros H. rewrite fg by (destruct (f key value this); congruence).
  destruct (f key value this); auto.
Qed.

Lemma reinsert_mono old this :
  reinsert f old this <> OutOfFuel -> reinsert g old this = reinsert f old this.
Proof.
  revert this. induction old as [|[b|] rest IH]; intros this; cbn; auto.
  intros H. rewrite reinsert_bucket_mono by (destruct (reinsert_bucket f b this); congruence).
  destruct (reinsert_bucket f b this); auto.
Qed.

Lemma setItem_body_mono k v this :
  setItem_body f k v this <> OutOfFuel ->
  setItem_body g k v this = setItem_body f k v this.
Proof.
  unfold setItem_body. destruct (getBucket k this) as [i this1].
  destruct (bucket_replace _ k v); auto.
  unfold checkLoadFactor. destruct (Qgt_bool _ _); auto.
  rewrite !resize_start. apply reinsert_mono.
Qed.

Lemma removeItem_body_mono k this :
  removeItem_body f k this <> OutOfFuel ->
  removeItem_body g k this = removeItem_body f k this.
Proof.
  unfold removeItem_body. destruct (getBucket k this) as [i this1].
  destruct (bucket_splice _ k); auto.
  unfold checkUnderLoadFactor. destruct (_ && _); auto.
  rewrite !resize_start. apply reinsert_mono.
Qed.
End FuelMono.

Lemma setItem_fuel_S fuel k v this :
  setItem fuel k v this <> OutOfFuel ->
  setItem (S fuel) k v this = setItem fuel k v this.
Proof.
  revert k v this. induction fuel as [|fuel IH]; intros k v this H.
  - now contradict H.
  - change (setItem_body (setItem (S fuel)) k v this = setItem_body (setItem fuel) k v this).
    apply setItem_body_mono; auto.
Qed.

Lemma setItem_fuel_le fuel fuel' k v this :
  (fuel <= fuel')%nat -> setItem fuel k v this <> OutOfFuel ->
  setItem fuel' k v this = setItem fuel k v this.
Proof.
  induction 1 as [|fuel' _ IH]; intros H; auto.
  rewrite setItem_fuel_S; rewrite IH; auto.
Qed.

Lemma removeItem_fuel_le fuel fuel' k this :
  (fuel <= fuel')%nat -> removeItem fuel k this <> OutOfFuel ->
  removeItem fuel' k this = removeItem fuel k this.
Proof.
  intros Hle. unfold removeItem. apply removeItem_body_mono.
  intros k0 v0 this0. now apply setItem_fuel_le.
Qed.

(** Two units of fuel are enough in a state that satisfies the invariant. *)
Lemma setItem_finishes fuel k v this :
  invariant this -> (2 <= fuel)%nat ->
  setItem fuel k v this = setItem 2 k v this /\ setItem 2 k v this <> OutOfFuel.
Proof.
  intros Hi Hf.
  assert (H2 : setItem 2 k v this <> OutOfFuel).
  { pose proof (setItem_spec 2 k v this Hi) as H.
    destruct (setItem 2 k v this); cbn in H; try discriminate. lia. }
  split; auto. now apply setItem_fuel_le.
Qed.

Lemma removeItem_finishes fuel k this :
  invariant this -> (2 <= fuel)%nat ->
  removeItem fuel k this = removeItem 2 k this /\ removeItem 2 k this <> OutOfFuel.
Proof.
  intros Hi Hf.
  assert (H2 : removeItem 2 k this <> OutOfFuel).
  { pose proof (removeItem_spec 2 k this Hi) as H.
    destruct (removeItem 2 k this); cbn in H; try discriminate. lia. }
  split; auto. now apply removeItem_fuel_le.
Qed.

(** ** Runs of calls *)

Lemma perform_reachable fuel c this :
  reachable this -> ends reachable True (perform fuel c this).
Proof.
  intros Hr. destruct c as [k v|k|k|]; cbn [perform].
  - destruct (setItem fuel (str k) (str v) this) as [[] this'|this'|] eqn:E; cbn; auto.
    + eapply reach_setItem; eauto.
    + eapply reach_setItem_throw; eauto.
  - cbn. now apply reach_getItem.
  - destruct (removeItem fuel (str k) this) as [[] this'|this'|] eqn:E; cbn; auto.
    + eapply reach_removeItem; eauto.
    + eapply reach_removeItem_throw; eauto.
  - cbn. now apply reach_clear.
Qed.

Lemma perform_all_reachable fuel cs o :
  ends reachable True o -> ends reachable True (perform_all fuel cs o).
Proof.
  revert o. induction cs as [|c rest IH]; intros o H; cbn [perform_all]; auto.
  destruct o as [[] this|this|]; auto.
  apply IH. now apply perform_reachable.
Qed.

Lemma after_reachable cs : run cs <> OutOfFuel -> reachable (after cs).
Proof.
  unfold after, run. intros H.
  pose proof (perform_all_reachable 2 cs (constructor None)) as P.
  specialize (P ltac:(cbn; eapply reach_constructor with (size_arg := None); reflexivity)).
  destruct (perform_all 2 cs (constructor None)); cbn in *; auto. congruence.
Qed.

(** ** Lookups in buckets *)

Lemma bucket_find_app b1 b2 k :
  bucket_find (b1 ++ b2) k =
  match bucket_find b1 k with Some v => Some v | None => bucket_find b2 k end.
Proof.
  induction b1 as [|[key val] rest IH]; cbn; auto.
  destruct (jsString_eq_dec key k); auto.
Qed.

Lemma bucket_find_none b k : bucket_find b k = None <-> ~ In k (map fst b).
Proof.
  induction b as [|[key val] rest IH]; cbn; [tauto|].
  destruct (jsString_eq_dec key k); [|tauto].
  split; [discriminate|tauto].
Qed.

Lemma bucket_find_in b k v :
  NoDup (map fst b) -> bucket_find b k = Some v <-> In (k, v) b.
Proof.
  induction b as [|[key val] rest IH]; cbn; intros N; [split; [discriminate|tauto]|].
  inversion N as [|? ? Hn N']; subst.
  destruct (jsString_eq_dec key k) as [->|D].
  - split; [intros [= ->]; auto|].
    intros [[= ->]|H]; auto.
    contradict Hn. change k with (fst (k, v)). now apply in_map.
  - rewrite (IH N'). split; [auto|]. intros [[= ? ?]|H]; [congruence|auto].
Qed.

Lemma bucket_replace_spec b k v b' :
  bucket_replace b k v = Some b' ->
  map fst b' = map fst b /\ bucket_find b' k = Some v /\
  forall k', k' <> k -> bucket_find b' k' = bucket_find b k'.
Proof.
  revert b'. induction b as [|[key val] rest IH]; cbn; intros b'; [discriminate|].
  destruct (jsString_eq_dec key k) as [->|D].
  - intros [= <-]. cbn. destruct (jsString_eq_dec k k); [|congruence].
    repeat split; auto. intros k' N.
    destruct (jsString_eq_dec k k'); congruence.
  - destruct (bucket_replace rest k v) as [r'|]; [|discriminate].
    intros [= <-]. destruct (IH r' eq_refl) as (Hm & Hf & Ho). cbn.
    destruct (jsString_eq_dec key k); [congruence|].
    repeat split; [congruence|auto|].
    intros k' N. destruct (jsString_eq_dec key k'); auto.
Qed.

Lemma bucket_splice_spec b k b' :
  bucket_splice b k = Some b' ->
  exists l1 v0 l2, b = l1 ++ (k, v0) :: l2 /\ b' = l1 ++ l2.
Proof.
  revert b'. induction b as [|[key val] rest IH]; cbn; intros b'; [discriminate|].
  destruct (jsString_eq_dec key k) as [->|D].
  - intros [= <-]. now exists [], val, rest.
  - destruct (bucket_splice rest k) as [r'|]; [|discriminate].
    intros [= <-]. destruct (IH r' eq_refl) as (l1 & v0 & l2 & -> & ->).
    now exists ((key, val) :: l1), v0, l2.
Qed.

(** ** The slot of an index within the flattened array *)

Lemma flat_in {A} (a : list (option (list A))) e :
  In e (flat a) <-> exists i b, array_get a i = Some b /\ In e b.
Proof.
  unfold array_get. induction a as [|[b|] rest IH]; cbn [flat].
  - split; [contradiction|]. intros ([|i] & b & H & _); discriminate.
  - rewrite in_app_iff, IH. split.
    + intros [H|(i & b0 & H & Hin)]; [now exists O, b|now exists (S i), b0].
    + intros ([|i] & b0 & H & Hin); cbn in H; [injection H as <-; auto|].
      right. now exists i, b0.
  - rewrite IH. split.
    + intros (i & b0 & H & Hin). now exists (S i), b0.
    + intros ([|i] & b0 & H & Hin); cbn in H; [discriminate|]. now exists i, b0.
Qed.

Lemma flat_split {A} (a : list (option (list A))) i :
  exists pre post,
    flat a = pre ++ match array_get a i with Some b => b | None => [] end ++ post /\
    (forall x, flat (array_set a i x) = pre ++ x ++ post) /\
    (forall e, In e (pre ++ post) ->
               exists j b, j <> i /\ array_get a j = Some b /\ In e b).
Proof.
  unfold array_get. revert a. induction i as [|i IH]; intros [|[b|] rest].
  - exists [], []. cbn. repeat split; auto using app_nil_r. contradiction.
  - exists [], (flat rest). cbn. repeat split; auto.
    intros e He. apply flat_in in He. destruct He as (j & b0 & H & Hin).
    now exists (S j), b0.
  - exists [], (flat rest). cbn. repeat split; auto.
    intros e He. apply flat_in in He. destruct He as (j & b0 & H & Hin).
    now exists (S j), b0.
  - destruct (IH []) as (pre & post & H1 & H2 & H3).
    exists pre, post. cbn [array_set flat nth_error].
    destruct i; cbn in H1; (repeat split; auto).
    all: intros e He; destruct (H3 e He) as (j & b0 & _ & H & _);
      destruct j; discriminate.
  - destruct (IH rest) as (pre & post & H1 & H2 & H3).
    exists (b ++ pre), post. cbn [array_set flat nth_error].
    rewrite H1, <- !app_assoc. repeat split.
    + intros x. now rewrite H2, <- app_assoc.
    + intros e He. rewrite in_app_iff in He.
      destruct He as [He|He]; [now exists O, b|].
      destruct (H3 e He) as (j & b0 & N & H & Hin). exists (S j), b0. auto.
  - destruct (IH rest) as (pre & post & H1 & H2 & H3).
    exists pre, post. cbn [array_set flat nth_error].
    repeat split; auto.
    intros e He. destruct (H3 e He) as (j & b0 & N & H & Hin). exists (S j), b0. auto.
Qed.

(** ** Keys without duplicates *)

Lemma NoDup_middle {A} (l1 m l2 : list A) :
  NoDup (l1 ++ l2) -> NoDup m ->
  (forall a, In a m -> ~ In a (l1 ++ l2)) -> NoDup (l1 ++ m ++ l2).
Proof.
  intros H12 Hm Hd.
  apply (Permutation_NoDup (l := m ++ l1 ++ l2)).
  - apply Permutation_app_swap_app.
  - now apply NoDup_app.
Qed.

Lemma NoDup_middle_remove {A} (l1 m l2 : list A) :
  NoDup (l1 ++ m ++ l2) -> NoDup (l1 ++ l2) /\ NoDup m.
Proof.
  intros H.
  assert (P : Permutation (l1 ++ m ++ l2) (m ++ l1 ++ l2))
    by apply Permutation_app_swap_app.
  pose proof (Permutation_NoDup P H) as H'.
  split; [eapply NoDup_app_remove_l | eapply NoDup_app_remove_r]; eauto.
Qed.

Lemma bucket_find_rev l k :
  NoDup (map fst l) -> bucket_find (rev l) k = bucket_find l k.
Proof.
  intros N.
  assert (N' : NoDup (map fst (rev l))) by (rewrite map_rev; now apply NoDup_rev).
  destruct (bucket_find l k) as [v|] eqn:E.
  - apply (bucket_find_in _ _ _ N'). rewrite <- in_rev. now apply (bucket_find_in _ _ _ N).
  - apply bucket_find_none. rewrite map_rev, <- in_rev. now apply bucket_find_none.
Qed.

Lemma in_keys (b : Bucket) k : In k (map fst b) <-> exists v, In (k, v) b.
Proof.
  rewrite in_map_iff. split.
  - intros ([k0 v] & E & H). cbn in E. subst. now exists v.
  - intros (v & H). now exists (k, v).
Qed.

(** ** The bucket of a key within the table *)

Lemma hash_size k this this' : size this' = size this -> hash k this' = hash k this.
Proof. unfold hash. now intros ->. Qed.

Lemma slot_view k this :
  placed this ->
  let i := Z.to_nat (hash k this) in
  exists pre post,
    flat (buckets this) = pre ++ bucket_at i this ++ post /\
    (forall x, flat (array_set (buckets this) i x) = pre ++ x ++ post) /\
    (forall k' v', In (k', v') (pre ++ post) -> Z.to_nat (hash k' this) <> i).
Proof.
  intros [_ Hidx] i.
  destruct (flat_split (buckets this) i) as (pre & post & H1 & H2 & H3).
  exists pre, post. repeat split; auto.
  intros k' v' Hin. destruct (H3 _ Hin) as (j & b & N & Hj & Hb).
  rewrite (Hidx j b k' v' Hj Hb). exact N.
Qed.

Lemma find_outside (l : Bucket) k (P : jsString -> Prop) :
  (forall k' v', In (k', v') l -> ~ P k') -> P k -> bucket_find l k = None.
Proof.
  intros H Hk. apply bucket_find_none. intros Hin.
  apply in_keys in Hin. destruct Hin as (v & Hin). exact (H k v Hin Hk).
Qed.

Lemma stored_find k this : placed this -> stored k this = find k this.
Proof.
  intros Hp. destruct (slot_view k this Hp) as (pre & post & H1 & _ & H3).
  unfold stored, find. rewrite H1, !bucket_find_app.
  rewrite (find_outside pre k (fun k' => Z.to_nat (hash k' this) = Z.to_nat (hash k this))),
          (find_outside post k (fun k' => Z.to_nat (hash k' this) = Z.to_nat (hash k this)));
    auto.
  - now destruct (bucket_find _ k).
  - intros k' v' Hin. apply (H3 k' v'). apply in_or_app. now right.
  - intros k' v' Hin. apply (H3 k' v'). apply in_or_app. now left.
Qed.

(** Writing the bucket [x] into the slot of [k]. *)
Lemma write_find k this this' x :
  placed this ->
  buckets this' = array_set (buckets this) (Z.to_nat (hash k this)) x ->
  find k this' = bucket_find x k /\
  forall k', bucket_find x k' = bucket_find (bucket_at (Z.to_nat (hash k this)) this) k' ->
             find k' this' = find k' this.
Proof.
  intros Hp Hb. destruct (slot_view k this Hp) as (pre & post & H1 & H2 & H3).
  unfold find. rewrite Hb, H2, H1. split.
  - rewrite !bucket_find_app.
    rewrite (find_outside pre k (fun k' => Z.to_nat (hash k' this) = Z.to_nat (hash k this))),
            (find_outside post k (fun k' => Z.to_nat (hash k' this) = Z.to_nat (hash k this)));
      auto.
    + now destruct (bucket_find x k).
    + intros k' v' Hin. apply (H3 k' v'). apply in_or_app. now right.
    + intros k' v' Hin. apply (H3 k' v'). apply in_or_app. now left.
  - intros k' E. now rewrite !bucket_find_app, E.
Qed.

Lemma write_placed k this this' x :
  placed this -> size this' = size this ->
  buckets this' = array_set (buckets this) (Z.to_nat (hash k this)) x ->
  NoDup (map fst x) ->
  (forall k' v', In (k', v') x -> Z.to_nat (hash k' this) = Z.to_nat (hash k this)) ->
  placed this'.
Proof.
  intros Hp Hs Hb Hn Hx. destruct (slot_view k this Hp) as (pre & post & H1 & H2 & H3).
  destruct Hp as [Hnd Hidx]. split.
  - rewrite Hb, H2, !map_app. rewrite H1, !map_app in Hnd.
    apply NoDup_middle; auto.
    + now apply NoDup_middle_remove in Hnd.
    + intros k' Hk' Hin. rewrite <- map_app in Hin.
      apply in_keys in Hk', Hin. destruct Hk' as (v1 & Hk'), Hin as (v2 & Hin).
      exact (H3 k' v2 Hin (Hx k' v1 Hk')).
  - intros i b k' v' Hget Hin. rewrite (hash_size k' _ _ Hs). rewrite Hb in Hget.
    destruct (Nat.eq_dec (Z.to_nat (hash k this)) i) as [<-|N].
    + rewrite array_get_set_same in Hget. injection Hget as <-. eauto.
    + rewrite array_get_set_other in Hget by assumption. eauto.
Qed.

Lemma bucket_at_keys k this k' v' :
  placed this -> In (k', v') (bucket_at (Z.to_nat (hash k this)) this) ->
  Z.to_nat (hash k' this) = Z.to_nat (hash k this).
Proof.
  intros [_ Hidx]. unfold bucket_at.
  destruct (array_get (buckets this) (Z.to_nat (hash k this))) eqn:E; [|contradiction].
  intros Hin. exact (Hidx _ _ _ _ E Hin).
Qed.

Lemma bucket_at_nodup k this :
  placed this -> NoDup (map fst (bucket_at (Z.to_nat (hash k this)) this)).
Proof.
  intros Hp. destruct (slot_view k this Hp) as (pre & post & H1 & _).
  destruct Hp as [Hnd _]. rewrite H1, !map_app in Hnd.
  now apply NoDup_middle_remove in Hnd.
Qed.

(** ** The steps of [setItem] and [removeItem] on the entries *)

Lemma getBucket_placed k this :
  placed this ->
  let this1 := snd (getBucket k this) in
  placed this1 /\ flat (buckets this1) = flat (buckets this).
Proof.
  intros Hp. unfold getBucket.
  destruct (array_get (buckets this) (Z.to_nat (hash k this))) eqn:E; cbn [snd]; auto.
  split.
  - apply (write_placed k this _ []); auto; try constructor. contradiction.
  - cbn [buckets set_buckets]. now apply flat_set_missing.
Qed.

Lemma getBucket_find k k' this : find k' (snd (getBucket k this)) = find k' this.
Proof.
  unfold find, getBucket.
  destruct (array_get (buckets this) (Z.to_nat (hash k this))) eqn:E; cbn [snd]; auto.
  cbn [buckets set_buckets]. now rewrite flat_set_missing.
Qed.

(** The object after [#getBucket], as the three steps see it. *)
Lemma getBucket_view k this :
  placed this ->
  let i := Z.to_nat (hash k this) in
  let this1 := snd (getBucket k this) in
  fst (getBucket k this) = i /\ placed this1 /\
  size this1 = size this /\ hash k this1 = hash k this /\
  bucket_at i this1 = bucket_at i this /\
  forall k', find k' this1 = find k' this.
Proof.
  intros Hp i this1.
  destruct (getBucket_facts k this) as (Hi & Hsz & _ & _ & _ & _ & Hat).
  destruct (getBucket_placed k this Hp) as [Hp1 _].
  split; [exact Hi|]. split; [exact Hp1|]. split; [exact Hsz|].
  split; [now apply hash_size|]. split; [exact Hat|].
  intros k'. apply getBucket_find.
Qed.

Lemma replaced_sound k v this :
  placed this -> stored k this <> None ->
  placed (replaced k v this) /\
  forall k', find k' (replaced k v this) =
             if jsString_eq_dec k' k then Some v else find k' this.
Proof.
  intros Hp Hst. unfold replaced, stored in *.
  destruct (getBucket_view k this Hp) as (Hi & Hp1 & Hsz & Hh & Hat & Hf).
  destruct (getBucket k this) as [i this1]; cbn [fst snd] in *. subst i.
  rewrite <- Hat, <- Hh in *.
  set (i := Z.to_nat (hash k this1)) in *.
  destruct (bucket_replace (bucket_at i this1) k v) as [b'|] eqn:E.
  - destruct (bucket_replace_spec _ _ _ _ E) as (Hm & Hk & Ho).
    split.
    + apply (write_placed k this1 _ b'); auto.
      * rewrite Hm. now apply bucket_at_nodup.
      * intros k' v' Hin. assert (Hk' : In k' (map fst b')) by (apply in_keys; eauto).
        rewrite Hm in Hk'. apply in_keys in Hk'. destruct Hk' as (v0 & Hk').
        eapply bucket_at_keys; eauto.
    + intros k'.
      destruct (write_find k this1 (set_buckets (array_set (buckets this1) i b') this1) b'
                  Hp1 eq_refl) as [Hw1 Hw2].
      destruct (jsString_eq_dec k' k) as [->|N].
      * now rewrite Hw1.
      * rewrite Hw2, Hf; auto.
  - pose proof (bucket_replace_find (bucket_at i this1) k v) as Hr.
    rewrite E in Hr. congruence.
Qed.

Lemma pushed_sound k v this :
  placed this -> stored k this = None ->
  placed (pushed k v this) /\
  forall k', find k' (pushed k v this) =
             if jsString_eq_dec k' k then Some v else find k' this.
Proof.
  intros Hp Hst. unfold pushed, stored in *.
  destruct (getBucket_view k this Hp) as (Hi & Hp1 & Hsz & Hh & Hat & Hf).
  destruct (getBucket k this) as [i this1]; cbn [fst snd] in *. subst i.
  rewrite <- Hat, <- Hh in *.
  set (i := Z.to_nat (hash k this1)) in *.
  set (b := bucket_at i this1) in *.
  set (this2 := set_buckets (array_set (buckets this1) i (b ++ [(k, v)])) this1).
  assert (Hp2 : placed this2).
  { apply (write_placed k this1 _ (b ++ [(k, v)])); auto.
    - rewrite map_app. cbn. apply NoDup_app.
      + now apply bucket_at_nodup.
      + repeat constructor. auto.
      + intros a Ha [<-|[]]. revert Ha. now apply bucket_find_none.
    - intros k' v' Hin. apply in_app_or in Hin. destruct Hin as [Hin|[[= -> ->]|[]]]; auto.
      eapply bucket_at_keys; eauto. }
  split.
  - destruct Hp2 as [H1 H2]. split; auto.
  - intros k'. change (find k' (set_count (count this2 + 1) this2)) with (find k' this2).
    destruct (write_find k this1 this2 (b ++ [(k, v)]) Hp1 eq_refl) as [Hw1 Hw2].
    destruct (jsString_eq_dec k' k) as [->|N].
    + rewrite Hw1, bucket_find_app, Hst. cbn. now destruct (jsString_eq_dec k k).
    + rewrite Hw2; [apply Hf|]. rewrite bucket_find_app. cbn.
      destruct (jsString_eq_dec k k'); [congruence|]. fold i. fold b.
      now destruct (bucket_find b k').
Qed.

Lemma spliced_sound k this :
  placed this -> stored k this <> None ->
  placed (spliced k this) /\
  forall k', find k' (spliced k this) =
             if jsString_eq_dec k' k then None else find k' this.
Proof.
  intros Hp Hst. unfold spliced, stored in *.
  destruct (getBucket_view k this Hp) as (Hi & Hp1 & Hsz & Hh & Hat & Hf).
  destruct (getBucket k this) as [i this1]; cbn [fst snd] in *. subst i.
  rewrite <- Hat, <- Hh in *.
  set (i := Z.to_nat (hash k this1)) in *.
  pose proof (bucket_at_nodup k this1 Hp1) as Hn. fold i in Hn.
  destruct (bucket_splice (bucket_at i this1) k) as [b'|] eqn:E.
  - destruct (bucket_splice_spec _ _ _ E) as (l1 & v0 & l2 & Hb & ->).
    rewrite Hb, map_app in Hn. cbn [map fst] in Hn.
    set (this2 := set_buckets (array_set (buckets this1) i (l1 ++ l2)) this1).
    assert (Hp2 : placed this2).
    { apply (write_placed k this1 _ (l1 ++ l2)); auto.
      - rewrite map_app. eapply NoDup_remove_1; eauto.
      - intros k' v' Hin. apply (bucket_at_keys k this1 k' v' Hp1). fold i. rewrite Hb.
        apply in_app_or in Hin. apply in_or_app. cbn. tauto. }
    split.
    + destruct Hp2 as [H1 H2]. split; auto.
    + intros k'. change (find k' (set_count (count this1 - 1) this2)) with (find k' this2).
      destruct (write_find k this1 this2 (l1 ++ l2) Hp1 eq_refl) as [Hw1 Hw2].
      destruct (jsString_eq_dec k' k) as [->|N].
      * rewrite Hw1. apply bucket_find_none. rewrite map_app.
        eapply NoDup_remove_2; eauto.
      * rewrite Hw2; [apply Hf|]. fold i. rewrite Hb, !bucket_find_app. cbn.
        destruct (jsString_eq_dec k k'); [congruence|reflexivity].
  - pose proof (bucket_splice_find (bucket_at i this1) k) as Hr.
    rewrite E in Hr. congruence.
Qed.

(** ** The rebuild keeps the entries *)

Section RebuildSound.
Variable rec : jsString -> jsString -> Hashmap -> outcome unit.
Hypothesis rec_sound : sound rec.

Lemma reinsert_bucket_sound b this :
  placed this ->
  match reinsert_bucket rec b this with
  | Return _ this' =>
      placed this' /\
      forall k, find k this' = match bucket_find (rev b) k with
                               | Some v => Some v
                               | None => find k this
                               end
  | Throw this' => placed this'
  | OutOfFuel => True
  end.
Proof.
  revert this. induction b as [|[key value] rest IH]; intros this Hp; cbn [reinsert_bucket].
  - split; auto.
  - pose proof (rec_sound key value this Hp) as H.
    destruct (rec key value this) as [[] this1|this1|]; auto.
    destruct H as [Hp1 Hf1]. specialize (IH this1 Hp1).
    destruct (reinsert_bucket rec rest this1) as [[] this'|this'|]; auto.
    destruct IH as [Hp' Hf']. split; auto.
    intros k. rewrite Hf', Hf1. cbn [rev]. rewrite bucket_find_app. cbn.
    destruct (bucket_find (rev rest) k); auto.
    destruct (jsString_eq_dec k key), (jsString_eq_dec key k); congruence.
Qed.

Lemma reinsert_sound old this :
  placed this ->
  match reinsert rec old this with
  | Return _ this' =>
      placed this' /\
      forall k, find k this' = match bucket_find (rev (flat old)) k with
                               | Some v => Some v
                               | None => find k this
                               end
  | Throw this' => placed this'
  | OutOfFuel => True
  end.
Proof.
  revert this. induction old as [|[b|] rest IH]; intros this Hp; cbn [reinsert flat]; auto.
  pose proof (reinsert_bucket_sound b this Hp) as H.
  destruct (reinsert_bucket rec b this) as [[] this1|this1|]; auto.
  destruct H as [Hp1 Hf1]. specialize (IH this1 Hp1).
  destruct (reinsert rec rest this1) as [[] this'|this'|]; auto.
  destruct IH as [Hp' Hf']. split; auto.
  intros k. rewrite Hf', Hf1, rev_app_distr, bucket_find_app.
  now destruct (bucket_find (rev (flat rest)) k).
Qed.

Lemma fresh_placed sz n c log :
  placed (mkHashmap sz (repeat (Some []) n) c log).
Proof.
  split; cbn [buckets].
  - rewrite flat_repeat_empty. constructor.
  - intros i b k v Hget Hin. unfold array_get in Hget.
    destruct (nth_error _ i) as [[b0|]|] eqn:E; try discriminate.
    apply nth_error_In, repeat_spec in E.
    injection E as ->. injection Hget as <-. contradiction.
Qed.

Lemma resize_sound newSize this :
  placed this ->
  match resize rec newSize this with
  | Return _ this' => placed this' /\ forall k, find k this' = find k this
  | Throw this' => placed this'
  | OutOfFuel => True
  end.
Proof.
  intros Hp. rewrite resize_start.
  pose proof (reinsert_sound (buckets this) _
                (fresh_placed newSize (Z.to_nat newSize) 0 (console this ++ [newSize])))
    as H.
  destruct (reinsert rec (buckets this) _) as [[] this'|this'|]; auto.
  destruct H as [Hp' Hf]. split; auto.
  intros k. rewrite Hf, bucket_find_rev by apply Hp.
  unfold find. cbn [buckets]. rewrite flat_repeat_empty. cbn [bucket_find].
  now destruct (bucket_find (flat (buckets this)) k).
Qed.

Lemma setItem_body_sound : sound (setItem_body rec).
Proof.
  intros k v this Hp.
  rewrite setItem_body_step. destruct (stored k this) eqn:Hst.
  - apply replaced_sound; auto. congruence.
  - destruct (pushed_sound k v this Hp Hst) as [Hp1 Hf1].
    unfold checkLoadFactor. destruct (Qgt_bool _ _); [|split; auto].
    pose proof (resize_sound (size (pushed k v this) * 2) (pushed k v this) Hp1) as H.
    destruct (resize rec _ _) as [[] this'|this'|]; auto.
    destruct H as [Hp' Hf]. split; auto. intros k'. now rewrite Hf.
Qed.

Lemma removeItem_body_sound k this :
  placed this ->
  match removeItem_body rec k this with
  | Return _ this' =>
      placed this' /\
      forall k', find k' this' = if jsString_eq_dec k' k then None else find k' this
  | Throw this' => placed this'
  | OutOfFuel => True
  end.
Proof.
  intros Hp.
  rewrite removeItem_body_step. destruct (stored k this) eqn:Hst.
  - destruct (spliced_sound k this Hp ltac:(congruence)) as [Hp1 Hf1].
    unfold checkUnderLoadFactor. destruct (_ && _); [|split; auto].
    pose proof (resize_sound (Qceiling (inject_Z (size (spliced k this)) * (1 # 2))%Q)
                  (spliced k this) Hp1) as H.
    destruct (resize rec _ _) as [[] this'|this'|]; auto.
    destruct H as [Hp' Hf]. split; auto. intros k'. now rewrite Hf.
  - destruct (getBucket_placed k this Hp) as [Hp1 _]. split; auto.
    intros k'. rewrite getBucket_find.
    destruct (jsString_eq_dec k' k) as [->|]; auto.
    now rewrite <- stored_find.
Qed.
End RebuildSound.

Lemma setItem_sound fuel : sound (setItem fuel).
Proof.
  induction fuel as [|fuel IH].
  - intros k v this _. exact I.
  - exact (setItem_body_sound (setItem fuel) IH).
Qed.

Lemma removeItem_sound fuel k this :
  placed this ->
  match removeItem fuel k this with
  | Return _ this' =>
      placed this' /\
      forall k', find k' this' = if jsString_eq_dec k' k then None else find k' this
  | Throw this' => placed this'
  | OutOfFuel => True
  end.
Proof. apply removeItem_body_sound, setItem_sound. Qed.

Lemma reachable_placed this : reachable this -> placed this.
Proof.
  induction 1 as [sz this H | fuel k v this this' _ IH H | fuel k v this this' _ IH H
                 | k this _ IH | fuel k this this' _ IH H | fuel k this this' _ IH H
                 | this _ IH | k this _ IH].
  - unfold constructor, new in H. cbn in H. injection H as <-. apply fresh_placed.
  - pose proof (setItem_sound fuel k v this IH) as P. rewrite H in P. apply P.
  - pose proof (setItem_sound fuel k v this IH) as P. rewrite H in P. apply P.
  - rewrite getItem_state. now apply getBucket_placed.
  - pose proof (removeItem_sound fuel k this IH) as P. rewrite H in P. apply P.
  - pose proof (removeItem_sound fuel k this IH) as P. rewrite H in P. apply P.
  - apply fresh_placed.
  - rewrite keyExists_state, getItem_state. now apply getBucket_placed.
Qed.

(** ** Tables without holes *)

Lemma array_set_inside {A} (a : list (option A)) i x (P : option A -> Prop) :
  (i < length a)%nat -> Forall P a -> P (Some x) ->
  length (array_set a i x) = length a /\ Forall P (array_set a i x).
Proof.
  revert a. induction i as [|i IH]; intros [|y a] Hi Hf Hx; cbn in *; try lia.
  - inversion Hf; subst. split; auto.
  - inversion Hf; subst. destruct (IH a ltac:(lia) ltac:(assumption) Hx) as [Hl Hf'].
    split; [congruence|auto].
Qed.

Lemma dense_index k this : dense this -> (Z.to_nat (hash k this) < length (buckets this))%nat.
Proof.
  intros [Hs Hl _]. rewrite Hl.
  destruct (hash_index k this) as [H0 Hm]. rewrite (Hm Hs) in *.
  pose proof (Z.mod_pos_bound (hash32 k) (size this) Hs). lia.
Qed.

Lemma dense_slot i this :
  dense this -> (i < length (buckets this))%nat -> array_get (buckets this) i <> None.
Proof.
  intros [_ _ Hf] Hi. unfold array_get.
  destruct (nth_error (buckets this) i) as [[b|]|] eqn:E; try discriminate.
  - apply nth_error_In in E. rewrite Forall_forall in Hf. now apply Hf in E.
  - apply nth_error_None in E. lia.
Qed.

Lemma getBucket_dense k this :
  dense this -> getBucket k this = (Z.to_nat (hash k this), this).
Proof.
  intros Hd. unfold getBucket.
  pose proof (dense_slot _ this Hd (dense_index k this Hd)) as H.
  now destruct (array_get (buckets this) (Z.to_nat (hash k this))).
Qed.

Lemma write_dense k this this' x :
  dense this -> size this' = size this ->
  buckets this' = array_set (buckets this) (Z.to_nat (hash k this)) x ->
  dense this'.
Proof.
  intros Hd Hs Hb. pose proof (dense_index k this Hd) as Hi.
  destruct Hd as [H0 Hl Hf].
  destruct (array_set_inside (buckets this) _ x _ Hi Hf ltac:(discriminate)) as [Hl' Hf'].
  split; rewrite ?Hs, ?Hb; auto. congruence.
Qed.

Lemma replaced_dense k v this : dense this -> dense (replaced k v this).
Proof.
  intros Hd. unfold replaced. rewrite (getBucket_dense k this Hd).
  destruct (bucket_replace _ k v) as [b|]; auto.
  now apply (write_dense k this _ b).
Qed.

Lemma pushed_dense k v this : dense this -> dense (pushed k v this).
Proof.
  intros Hd. unfold pushed. rewrite (getBucket_dense k this Hd).
  now apply (write_dense k this _
               (bucket_at (Z.to_nat (hash k this)) this ++ [(k, v)])).
Qed.

Lemma spliced_dense k this : dense this -> dense (spliced k this).
Proof.
  intros Hd. unfold spliced. rewrite (getBucket_dense k this Hd).
  destruct (bucket_splice _ k) as [b|]; auto.
  now apply (write_dense k this _ b).
Qed.

Lemma fresh_dense newSize log :
  0 < newSize -> dense (mkHashmap newSize (repeat (Some []) (Z.to_nat newSize)) 0 log).
Proof.
  intros Hn. split; cbn [size buckets]; auto using repeat_length.
  apply Forall_forall. intros slot Hin. apply repeat_spec in Hin. now subst.
Qed.

Section RebuildSteady.
Variable rec : jsString -> jsString -> Hashmap -> outcome unit.
Hypothesis rec_steady : steady rec.

Lemma reinsert_bucket_steady b this :
  dense this ->
  match reinsert_bucket rec b this with
  | Return _ this' => dense this'
  | Throw _ => False
  | OutOfFuel => True
  end.
Proof.
  revert this. induction b as [|[key value] rest IH]; intros this Hd; cbn [reinsert_bucket];
    auto.
  pose proof (rec_steady key value this Hd) as H.
  destruct (rec key value this) as [[] this1|this1|]; auto.
  now apply IH.
Qed.

Lemma reinsert_steady old this :
  Forall (fun slot => slot <> None) old -> dense this ->
  match reinsert rec old this with
  | Return _ this' => dense this'
  | Throw _ => False
  | OutOfFuel => True
  end.
Proof.
  revert this. induction old as [|[b|] rest IH]; intros this Hf Hd; cbn [reinsert]; auto.
  - inversion Hf; subst.
    pose proof (reinsert_bucket_steady b this Hd) as H.
    destruct (reinsert_bucket rec b this) as [[] this1|this1|]; auto.
    now apply IH.
  - inversion Hf; subst. congruence.
Qed.

Lemma resize_steady newSize this :
  dense this -> 0 < newSize ->
  match resize rec newSize this with
  | Return _ this' => dense this'
  | Throw _ => False
  | OutOfFuel => True
  end.
Proof.
  intros Hd Hn. rewrite resize_start.
  apply reinsert_steady; [apply Hd | now apply fresh_dense].
Qed.

Lemma setItem_body_steady : steady (setItem_body rec).
Proof.
  intros k v this Hd.
  pose proof (replaced_dense k v this Hd) as Hr.
  pose proof (pushed_dense k v this Hd) as Hp.
  unfold replaced, pushed in Hr, Hp. unfold setItem_body.
  destruct (getBucket k this) as [i this1].
  destruct (bucket_replace _ k v); auto.
  unfold checkLoadFactor. destruct (Qgt_bool _ _); auto.
  apply resize_steady; auto.
  destruct Hp as [Hs _ _]. cbn [size set_count set_buckets] in *. lia.
Qed.

Lemma removeItem_body_steady k this :
  dense this ->
  match removeItem_body rec k this with
  | Return _ this' => dense this'
  | Throw _ => False
  | OutOfFuel => True
  end.
Proof.
  intros Hd.
  pose proof (spliced_dense k this Hd) as Hp.
  unfold spliced in Hp. unfold removeItem_body.
  rewrite (getBucket_dense k this Hd) in *.
  destruct (bucket_splice _ k); auto.
  unfold checkUnderLoadFactor. destruct (_ && _); auto.
  apply resize_steady; auto. rewrite Qceiling_half.
  destruct Hp as [Hs _ _]. cbn [size set_count set_buckets] in *.
  apply Z.div_str_pos. lia.
Qed.
End RebuildSteady.

Lemma setItem_steady fuel : steady (setItem fuel).
Proof.
  induction fuel as [|fuel IH].
  - intros k v this _. exact I.
  - exact (setItem_body_steady (setItem fuel) IH).
Qed.

Lemma uncleared_dense this : uncleared this -> dense this.
Proof.
  induction 1 as [sz this Hsz H | fuel k v this this' _ IH H | k this _ IH
                 | fuel k this this' _ IH H | k this _ IH].
  - unfold constructor, new in H. cbn in H. injection H as <-.
    apply fresh_dense. destruct sz as [s|]; [|reflexivity].
    destruct (Z.eqb_spec s 0); [reflexivity|lia].
  - pose proof (setItem_steady fuel k v this IH) as P. now rewrite H in P.
  - now rewrite getItem_state, getBucket_dense.
  - pose proof (removeItem_body_steady (setItem fuel) (setItem_steady fuel) k this IH) as P.
    unfold removeItem in H. now rewrite H in P.
  - now rewrite keyExists_state, getItem_state, getBucket_dense.
Qed.

Lemma uncleared_reachable this : uncleared this -> reachable this.
Proof.
  induction 1 as [sz this Hsz H | fuel k v this this' _ IH H | k this _ IH
                 | fuel k this this' _ IH H | k this _ IH].
  - eapply reach_constructor; eauto.
  - eapply reach_setItem; eauto.
  - now apply reach_getItem.
  - eapply reach_removeItem; eauto.
  - now apply reach_keyExists.
Qed.

(** ** What the calls do to the entries *)

(** When [setItem] returns, [getItem] finds the value, and the other keys
    read as before. *)
Lemma setItem_getItem fuel k v this this' :
  reachable this -> setItem fuel k v this = Return tt this' ->
  fst (getItem k this') = Some v /\
  forall k', k' <> k -> fst (getItem k' this') = fst (getItem k' this).
Proof.
  intros Hr E. pose proof (reachable_placed this Hr) as Hp.
  pose proof (setItem_sound fuel k v this Hp) as P. rewrite E in P.
  destruct P as [Hp' Hf]. rewrite !getItem_stored, stored_find, Hf by assumption.
  split; [now destruct (jsString_eq_dec k k)|].
  intros k' N. rewrite !getItem_stored, !stored_find, Hf by assumption.
  now destruct (jsString_eq_dec k' k).
Qed.

(** When [removeItem] returns, the key is absent, and the other keys read as
    before. *)
Lemma removeItem_getItem fuel k this this' :
  reachable this -> removeItem fuel k this = Return tt this' ->
  fst (getItem k this') = None /\
  forall k', k' <> k -> fst (getItem k' this') = fst (getItem k' this).
Proof.
  intros Hr E. pose proof (reachable_placed this Hr) as Hp.
  pose proof (removeItem_sound fuel k this Hp) as P. rewrite E in P.
  destruct P as [Hp' Hf]. rewrite !getItem_stored, stored_find, Hf by assumption.
  split; [now destruct (jsString_eq_dec k k)|].
  intros k' N. rewrite !getItem_stored, !stored_find, Hf by assumption.
  now destruct (jsString_eq_dec k' k).
Qed.

(** [keys] lists every present key once. *)
Lemma keys_exact this :
  reachable this ->
  NoDup (keys this) /\ forall k, In k (keys this) <-> fst (getItem k this) <> None.
Proof.
  intros Hr. pose proof (reachable_placed this Hr) as Hp. split; [apply Hp|].
  intros k. rewrite getItem_stored, stored_find by assumption.
  unfold keys, find. pose proof (bucket_find_none (flat (buckets this)) k) as H.
  destruct (bucket_find (flat (buckets this)) k).
  - split; [discriminate|]. intros _.
    destruct (in_dec jsString_eq_dec k (map fst (flat (buckets this)))); auto.
    apply H in n. discriminate.
  - split; [|congruence]. intros Hin. now apply H in Hin.
Qed.

(** On a table that was never cleared, [setItem] and [removeItem] return. *)
Lemma uncleared_total fuel this :
  uncleared this -> (2 <= fuel)%nat ->
  (forall k v, exists this', setItem fuel k v this = Return tt this') /\
  (forall k, exists this', removeItem fuel k this = Return tt this').
Proof.
  intros Hu Hf. pose proof (uncleared_dense this Hu) as Hd.
  pose proof (reachable_invariant this (uncleared_reachable this Hu)) as Hi. split.
  - intros k v. destruct (setItem_finishes fuel k v this Hi Hf) as [E N].
    pose proof (setItem_steady fuel k v this Hd) as P. rewrite <- E in N.
    destruct (setItem fuel k v this) as [[] this'|this'|]; [eauto|contradiction|congruence].
  - intros k. destruct (removeItem_finishes fuel k this Hi Hf) as [E N].
    pose proof (removeItem_body_steady (setItem fuel) (setItem_steady fuel) k this Hd) as P.
    fold (removeItem fuel k this) in P. rewrite <- E in N.
    destruct (removeItem fuel k this) as [[] this'|this'|];
      [eauto|contradiction|congruence].
Qed.

(** ** The entry counter *)

Lemma entry_count_total this : entry_count this = total this.
Proof.
  unfold entry_count, total. f_equal.
  induction (buckets this) as [|[b|] rest IH]; cbn [map list_sum fold_right flat]; auto.
  rewrite length_app. unfold list_sum in IH. now rewrite IH.
Qed.

(** C8. In every reachable state, [count] is the number of entries summed
    over all buckets. *)
Theorem count_matches_buckets this :
  reachable this -> count this = entry_count this.
Proof.
  intros H. rewrite entry_count_total. now apply reachable_invariant.
Qed.

Lemma count_matches_buckets_witness :
  let this := after [SetItem "a" "1"; SetItem "b" "2"; SetItem "c" "3"; RemoveItem "b"] in
  reachable this /\ count this = 2 /\ entry_count this = 2.
Proof.
  intros this.
  assert (Hr : reachable this) by (apply after_reachable; vm_compute; discriminate).
  pose proof (count_matches_buckets this Hr) as H.
  split; [exact Hr|]. split; [reflexivity|]. rewrite <- H. reflexivity.
Defined.

(** ** The grow check *)

Lemma Qgt_bool_lt x y : Qgt_bool x y = true <-> (y < x)%Q.
Proof.
  unfold Qgt_bool. rewrite negb_true_iff, <- not_true_iff_false, Qle_bool_iff.
  split; [apply Qnot_le_lt | apply Qlt_not_le].
Qed.

Lemma Qlt_bool_lt x y : Qlt_bool x y = true <-> (x < y)%Q.
Proof. apply (Qgt_bool_lt y x). Qed.

Lemma grow_due_loadFactor c s :
  0 <= c -> s <> 0 ->
  grow_due c s = true <-> (loadFactor < inject_Z c / inject_Z s)%Q.
Proof. intros Hc Hs. now rewrite <- Qgt_bool_lt, Qgt_loadFactor. Qed.

Lemma shrink_due_underLoadFactor c s :
  shrink_due c s = true <-> (inject_Z c / inject_Z s < 4 # 10)%Q /\ 10 < s.
Proof.
  unfold shrink_due. rewrite andb_true_iff, !Z.ltb_lt, <- Qlt_bool_lt.
  split; intros [H1 H2]; split; auto.
  - rewrite Qlt_underLoadFactor by lia. now apply Z.ltb_lt.
  - rewrite Qlt_underLoadFactor in H1 by lia. now apply Z.ltb_lt.
Qed.

(** C4. The insert of a new key raises [count], and when the new
    [count / size] exceeds 0.70 the table is rebuilt at [size * 2] (the
    rebuild is logged and [size] is doubled) before [setItem] ends;
    otherwise nothing is rebuilt.  When [setItem] returns, the new key reads
    as its value and every other key reads as before, and it does return on
    a table that was never cleared.  The third distinct key of a fresh table
    makes it grow from 4 to 8. *)
Theorem setItem_grow_check :
  (forall fuel k v this,
      reachable this -> (2 <= fuel)%nat -> fst (getItem k this) = None ->
      exists this',
        (setItem fuel k v this = Return tt this' \/ setItem fuel k v this = Throw this') /\
        ((loadFactor < inject_Z (count this + 1) / inject_Z (size this))%Q ->
         size this' = size this * 2 /\
         console this' = console this ++ [size this * 2]) /\
        (~ (loadFactor < inject_Z (count this + 1) / inject_Z (size this))%Q ->
         setItem fuel k v this = Return tt this' /\
         size this' = size this /\ console this' = console this /\
         count this' = count this + 1) /\
        (setItem fuel k v this = Return tt this' ->
         fst (getItem k this') = Some v /\
         forall k', k' <> k -> fst (getItem k' this') = fst (getItem k' this)) /\
        (uncleared this -> setItem fuel k v this = Return tt this')) /\
  (let two := after [SetItem "a" "1"; SetItem "b" "2"] in
   size two = 4 /\ count two = 2 /\ console two = [] /\
   exists three,
     setItem 2 (str "c") (str "3") two = Return tt three /\
     size three = 8 /\ count three = 3 /\ console three = [8]).
Proof.
  split.
  - intros fuel k v this Hr Hf Hk.
    pose proof (reachable_invariant this Hr) as Hi.
    rewrite getItem_stored in Hk.
    pose proof (grow_due_loadFactor (count this + 1) (size this)) as G.
    rewrite (inv_count _ Hi) in G at 1.
    specialize (G ltac:(pose proof (total_nonneg this); lia) (inv_size _ Hi)).
    destruct (grow_due (count this + 1) (size this)) eqn:Hg.
    + destruct (setItem_finishes fuel k v this Hi Hf) as [E _].
      pose proof (setItem_spec 2 k v this Hi) as P. rewrite <- E in P.
      unfold setItem_post in P. rewrite Hk, Hg in P.
      pose proof (fun Hu => proj1 (uncleared_total fuel this Hu Hf) k v) as U.
      pose proof (setItem_getItem fuel k v this) as R.
      destruct (setItem fuel k v this) as [[] this'|this'|]; cbn [ends] in P; [| |lia];
        exists this'; (split; [auto|]); (split; [tauto|]);
        (split; [intros N; contradict N; now apply G|]).
      * split; auto.
      * split; [discriminate|]. intros Hu. destruct (U Hu). discriminate.
    + pose proof (setItem_quiet fuel k v this (inv_count _ Hi) (inv_size _ Hi) Hg) as P.
      rewrite Hk in P.
      pose proof (setItem_getItem fuel k v this) as R.
      destruct (setItem fuel k v this) as [[] this'|this'|]; cbn [returns] in P;
        [|tauto|lia].
      exists this'. split; [auto|]. split; [|split; [tauto|split; auto]].
      intros N. apply G in N. discriminate.
  - vm_compute. repeat split. eexists. repeat split.
Qed.

Lemma setItem_grow_check_witness :
  let this := after [SetItem "a" "1"; SetItem "b" "2"] in
  reachable this /\ fst (getItem (str "c") this) = None /\
  exists this',
    (setItem 2 (str "c") (str "3") this = Return tt this' \/
     setItem 2 (str "c") (str "3") this = Throw this') /\
    ((loadFactor < inject_Z (count this + 1) / inject_Z (size this))%Q ->
     size this' = size this * 2 /\
     console this' = console this ++ [size this * 2]) /\
    (~ (loadFactor < inject_Z (count this + 1) / inject_Z (size this))%Q ->
     setItem 2 (str "c") (str "3") this = Return tt this' /\
     size this' = size this /\ console this' = console this /\
     count this' = count this + 1) /\
    (setItem 2 (str "c") (str "3") this = Return tt this' ->
     fst (getItem (str "c") this') = Some (str "3") /\
     forall k', k' <> str "c" -> fst (getItem k' this') = fst (getItem k' this)) /\
    (uncleared this -> setItem 2 (str "c") (str "3") this = Return tt this').
Proof.
  intros this.
  assert (Hr : reachable this) by (apply after_reachable; vm_compute; discriminate).
  assert (Hk : fst (getItem (str "c") this) = None) by (vm_compute; reflexivity).
  split; [exact Hr|]. split; [exact Hk|].
  exact (proj1 setItem_grow_check 2%nat (str "c") (str "3") this Hr (le_n 2) Hk).
Defined.

(** ** The shrink check *)

(** C5, as stated, fails: the table is rebuilt at [ceil(size * 0.5)], but
    that need not be its size when the removal ends, since the rebuild
    re-inserts through [setItem].  With 7 keys in a table of size 16, the
    removal of one leaves 6/16 < 0.40; the table is rebuilt at 8, the sixth
    re-insertion finds 6/8 > 0.70, and the call ends at size 16. *)
Lemma removeItem_shrink_regrows_counterexample :
  ~ (forall fuel k this this',
        reachable this -> (2 <= fuel)%nat -> fst (getItem k this) <> None ->
        removeItem fuel k this = Return tt this' ->
        (inject_Z (count this - 1) / inject_Z (size this) < 4 # 10)%Q /\ 10 < size this ->
        size this' = Qceiling (inject_Z (size this) * (1 # 2))%Q).
Proof.
  intros H.
  pose (this := after [SetItem "a" "1"; SetItem "b" "2"; SetItem "c" "3"; SetItem "d" "4";
                       SetItem "e" "5"; SetItem "f" "6"; SetItem "g" "7"]).
  assert (Hr : reachable this) by (apply after_reachable; vm_compute; discriminate).
  specialize (H 2%nat (str "a") this (state_of (removeItem 2 (str "a") this)) Hr (le_n 2)
                ltac:(vm_compute; discriminate) ltac:(vm_compute; reflexivity)
                ltac:(vm_compute; split; reflexivity)).
  vm_compute in H. discriminate H.
Qed.

(** C5, amended.  The removal of a present key lowers [count], and when the
    new [count / size] is below 0.40 and [size] is above 10 the table is
    rebuilt at [ceil(size * 0.5)], which is logged first; the call ends at
    that size, or at twice that size after one grow during the
    re-insertion, which happens only when the entries left exceed 0.70 of
    the new size.  A table of size 10 or less is never shrunk, while the new
    size itself may be 10 or less: a table of size 11 shrinks to 6.  When
    [removeItem] returns, the key is absent and every other key reads as
    before, and it does return on a table that was never cleared. *)
Theorem removeItem_shrink_check :
  (forall fuel k this,
      reachable this -> (2 <= fuel)%nat -> fst (getItem k this) <> None ->
      let newSize := Qceiling (inject_Z (size this) * (1 # 2))%Q in
      let under := (inject_Z (count this - 1) / inject_Z (size this) < 4 # 10)%Q in
      exists this',
        (removeItem fuel k this = Return tt this' \/ removeItem fuel k this = Throw this') /\
        (under /\ 10 < size this ->
         (size this' = newSize /\ console this' = console this ++ [newSize]) \/
         (size this' = newSize * 2 /\
          console this' = console this ++ [newSize; newSize * 2] /\
          7 * newSize < 10 * (count this - 1))) /\
        (~ (under /\ 10 < size this) ->
         removeItem fuel k this = Return tt this' /\
         size this' = size this /\ console this' = console this /\
         count this' = count this - 1) /\
        (removeItem fuel k this = Return tt this' ->
         fst (getItem k this') = None /\
         forall k', k' <> k -> fst (getItem k' this') = fst (getItem k' this)) /\
        (uncleared this -> removeItem fuel k this = Return tt this')) /\
  (let eleven := state_of (perform_all 2 [SetItem "a" "1"] (constructor (Some 11))) in
   size eleven = 11 /\ count eleven = 1 /\ console eleven = [] /\
   exists small,
     removeItem 2 (str "a") eleven = Return tt small /\
     size small = 6 /\ count small = 0 /\ console small = [6]).
Proof.
  split.
  - intros fuel k this Hr Hf Hk newSize under.
    pose proof (reachable_invariant this Hr) as Hi.
    rewrite getItem_stored in Hk.
    destruct (stored k this) as [v|] eqn:Hst; [clear Hk|congruence].
    destruct (removeItem_finishes fuel k this Hi Hf) as [E _].
    pose proof (removeItem_spec 2 k this Hi) as P. rewrite <- E in P.
    unfold removeItem_post in P. rewrite Hst in P.
    pose proof (shrink_due_underLoadFactor (count this - 1) (size this)) as G.
    fold under in G.
    unfold newSize. rewrite Qceiling_half.
    pose proof (fun Hu => proj2 (uncleared_total fuel this Hu Hf) k) as U.
    pose proof (removeItem_getItem fuel k this) as R.
    destruct (shrink_due (count this - 1) (size this)) eqn:Hd.
    + destruct (removeItem fuel k this) as [[] this'|this'|]; cbn [ends] in P; [| |lia];
        exists this'; (split; [auto|]); destruct P as (_ & P);
        (split; [intros _; unfold rebuilt in P; tauto|]);
        (split; [intros N; contradict N; now apply G|]).
      * split; auto.
      * split; [discriminate|]. intros Hu. destruct (U Hu). discriminate.
    + rewrite removeItem_step, Hst, checkUnderLoadFactor_test in P, U, R |- *.
      destruct (spliced_facts k this ltac:(congruence)) as (Hsz & Hcn & _).
      rewrite Hsz, Hcn, Hd in P, U, R |- *. cbn [ends] in P.
      exists (spliced k this). split; [auto|]. split; [|split; [tauto|split; auto]].
      intros N. apply G in N. discriminate.
  - vm_compute. repeat split. eexists. repeat split.
Qed.

Lemma removeItem_shrink_check_witness :
  let this := after [SetItem "a" "1"; SetItem "b" "2"; SetItem "c" "3"; SetItem "d" "4";
                     SetItem "e" "5"; SetItem "f" "6"] in
  reachable this /\ fst (getItem (str "a") this) <> None /\
  let newSize := Qceiling (inject_Z (size this) * (1 # 2))%Q in
  let under := (inject_Z (count this - 1) / inject_Z (size this) < 4 # 10)%Q in
  exists this',
    (removeItem 2 (str "a") this = Return tt this' \/
     removeItem 2 (str "a") this = Throw this') /\
    (under /\ 10 < size this ->
     (size this' = newSize /\ console this' = console this ++ [newSize]) \/
     (size this' = newSize * 2 /\
      console this' = console this ++ [newSize; newSize * 2] /\
      7 * newSize < 10 * (count this - 1))) /\
    (~ (under /\ 10 < size this) ->
     removeItem 2 (str "a") this = Return tt this' /\
     size this' = size this /\ console this' = console this /\
     count this' = count this - 1) /\
    (removeItem 2 (str "a") this = Return tt this' ->
     fst (getItem (str "a") this') = None /\
     forall k', k' <> str "a" -> fst (getItem k' this') = fst (getItem k' this)) /\
    (uncleared this -> removeItem 2 (str "a") this = Return tt this').
Proof.
  intros this.
  assert (Hr : reachable this) by (apply after_reachable; vm_compute; discriminate).
  assert (Hk : fst (getItem (str "a") this) <> None) by (vm_compute; discriminate).
  split; [exact Hr|]. split; [exact Hk|].
  exact (proj1 removeItem_shrink_check 2%nat (str "a") this Hr (le_n 2) Hk).
Defined.

(** ** Resizes within a rebuild *)

(** C3, as stated, fails: the rebuild of a shrink re-inserts through
    [setItem], whose grow check can fire.  With 7 keys in a table of size 16,
    a removal shrinks the table to 8 and the re-insertion of the sixth entry
    grows it back to 16: one call logs two resizes. *)
Lemma rebuild_fires_resize_counterexample :
  ~ (forall fuel k this this',
        reachable this -> (2 <= fuel)%nat ->
        removeItem fuel k this = Return tt this' ->
        console this' = console this \/ exists n, console this' = console this ++ [n]).
Proof.
  intros H.
  pose (this := after [SetItem "a" "1"; SetItem "b" "2"; SetItem "c" "3"; SetItem "d" "4";
                       SetItem "e" "5"; SetItem "f" "6"; SetItem "g" "7"]).
  assert (Hr : reachable this) by (apply after_reachable; vm_compute; discriminate).
  specialize (H 2%nat (str "a") this (state_of (removeItem 2 (str "a") this)) Hr (le_n 2)
                ltac:(vm_compute; reflexivity)).
  vm_compute in H. destruct H as [H|[n H]]; discriminate.
Qed.

(** C3, amended.  The rebuild of a grow fires no further resize: [setItem]
    logs at most one resize, to twice the size.  The rebuild of a shrink to
    [n = ceil(size * 0.5)] fires at most one further resize, a grow to
    [n * 2], and only when the entries exceed 0.7 * [n]. *)
Theorem rebuild_fires_at_most_one_grow fuel this :
  reachable this -> (2 <= fuel)%nat ->
  (forall k v, exists this',
      (setItem fuel k v this = Return tt this' \/ setItem fuel k v this = Throw this') /\
      (console this' = console this \/
       console this' = console this ++ [size this * 2])) /\
  (forall k, exists this',
      (removeItem fuel k this = Return tt this' \/ removeItem fuel k this = Throw this') /\
      let n := Qceiling (inject_Z (size this) * (1 # 2))%Q in
      (console this' = console this \/
       console this' = console this ++ [n] \/
       (console this' = console this ++ [n; n * 2] /\ 7 * n < 10 * (count this - 1)))).
Proof.
  intros Hr Hf. pose proof (reachable_invariant this Hr) as Hi. split.
  - intros k v.
    destruct (setItem_finishes fuel k v this Hi Hf) as [E _].
    pose proof (setItem_spec 2 k v this Hi) as P. rewrite <- E in P.
    destruct (setItem fuel k v this) as [[] this'|this'|]; cbn [ends] in P; [| |lia];
      exists this'; (split; [auto|]); destruct P as (_ & _ & P);
      destruct (stored k this); try tauto;
      destruct (grow_due (count this + 1) (size this)); tauto.
  - intros k. rewrite Qceiling_half. cbv zeta.
    destruct (removeItem_finishes fuel k this Hi Hf) as [E _].
    pose proof (removeItem_spec 2 k this Hi) as P. rewrite <- E in P.
    destruct (removeItem fuel k this) as [[] this'|this'|]; cbn [ends] in P; [| |lia];
      exists this'; (split; [auto|]); destruct P as (_ & P);
      destruct (stored k this); try tauto;
      destruct (shrink_due (count this - 1) (size this)); unfold rebuilt in P; tauto.
Qed.

Lemma rebuild_fires_at_most_one_grow_witness :
  let this := after [SetItem "a" "1"; SetItem "b" "2"; SetItem "c" "3"; SetItem "d" "4";
                     SetItem "e" "5"; SetItem "f" "6"; SetItem "g" "7"] in
  reachable this /\
  (forall k v, exists this',
      (setItem 2 k v this = Return tt this' \/ setItem 2 k v this = Throw this') /\
      (console this' = console this \/
       console this' = console this ++ [size this * 2])) /\
  (forall k, exists this',
      (removeItem 2 k this = Return tt this' \/ removeItem 2 k this = Throw this') /\
      let n := Qceiling (inject_Z (size this) * (1 # 2))%Q in
      (console this' = console this \/
       console this' = console this ++ [n] \/
       (console this' = console this ++ [n; n * 2] /\ 7 * n < 10 * (count this - 1)))).
Proof.
  intros this.
  assert (Hr : reachable this) by (apply after_reachable; vm_compute; discriminate).
  split; [exact Hr|].
  exact (rebuild_fires_at_most_one_grow 2%nat this Hr (le_n 2)).
Defined.

(** ** [clear] *)

(** C1 fails on the code: [clear] rebuilds the bucket array at the initial
    size and resets [count], and leaves [size] as it was.  After a growth to
    16 and a [clear], [size] is 16, and three more keys do not grow the
    table, while they grow a fresh one to 8. *)
Theorem clear_keeps_size :
  (forall this,
      size (clear this) = size this /\
      buckets (clear this) = repeat (Some []) 4 /\
      count (clear this) = 0 /\ console (clear this) = console this) /\
  (let grown := after [SetItem "a" "1"; SetItem "b" "2"; SetItem "c" "3";
                       SetItem "d" "4"; SetItem "e" "5"; SetItem "f" "6"] in
   size grown = 16 /\ size (clear grown) = 16 /\
   length (buckets (clear grown)) = 4%nat /\
   exists cleared3 fresh3,
     perform_all 2 [SetItem "x" "1"; SetItem "y" "2"; SetItem "z" "3"]
                 (Return tt (clear grown)) = Return tt cleared3 /\
     size cleared3 = 16 /\ console cleared3 = console grown /\
     run [SetItem "x" "1"; SetItem "y" "2"; SetItem "z" "3"] = Return tt fresh3 /\
     size fresh3 = 8 /\ console fresh3 = [8]).
Proof.
  split.
  - intros this. repeat split.
  - vm_compute. repeat split. eexists. eexists. repeat split.
Qed.

(** ** The hash *)

(** C2 fails on the code: [hash *= FNV_PRIME] is a binary64 multiplication,
    and the product of a 32-bit value and the prime needs up to 56 bits, so
    its low bits are rounded away before [>>> 0].  For the key "b" the exact
    product is -35716716523934235 and the code computes -35716716523934236:
    the hash is 3876335076, where 32-bit FNV-1a gives 3876335077. *)
Theorem hash32_is_not_fnv1a :
  Z.lxor (ToInt32 FNV_OFFSET_BASIS) 98 = -2128831065 /\
  -2128831065 * FNV_PRIME = -35716716523934235 /\
  number_mul (-2128831065) FNV_PRIME = -35716716523934236 /\
  hash32 (str "b") = 3876335076 /\ fnv1a_32 (str "b") = 3876335077 /\
  hash32 (str "abc") = 440920332 /\ fnv1a_32 (str "abc") = 440920331.
Proof. vm_compute. repeat split. Qed.

(** Where no product is rounded the two agree. *)
Lemma hash32_fnv1a_agree_on_a :
  hash32 (str "") = fnv1a_32 (str "") /\ hash32 (str "a") = fnv1a_32 (str "a").
Proof. vm_compute. split; reflexivity. Qed.

(** ** Construction *)

(** C6, as stated, fails: neither a zero nor a negative size is rejected.
    [new Hashmap(0)] returns a table of the default size 4, and
    [new Hashmap(-3)] returns a table whose size is -3 and whose bucket
    array is empty. *)
Lemma zero_and_negative_size_accepted_counterexample :
  constructor (Some 0) = Return tt (mkHashmap 4 [Some []; Some []; Some []; Some []] 0 []) /\
  constructor (Some (-3)) = Return tt (mkHashmap (-3) [] 0 []).
Proof. split; reflexivity. Qed.

(** C6, amended.  A zero or negative size is not rejected, at construction
    or at first use.  [new Hashmap(0)] is a table of the default size 4 with
    4 empty buckets; [new Hashmap(s)] for a negative [s] is a table of size
    [s] with no bucket at all; on either, [setItem] returns.  A remainder by
    zero is still never taken: no call makes [size] 0. *)
Theorem constructor_accepts_zero_and_negative_size :
  (forall s, s <= 0 ->
     exists this,
       constructor (Some s) = Return tt this /\
       size this = (if s =? 0 then 4 else s) /\
       buckets this = repeat (Some []) (Z.to_nat (size this)) /\
       count this = 0 /\
       forall k v, exists this', setItem 2 k v this = Return tt this') /\
  (forall this, reachable this -> size this <> 0).
Proof.
  split.
  - intros s Hs.
    destruct (constructor (Some s)) as [[] this|this|] eqn:E;
      [|discriminate E|discriminate E].
    exists this. split; [reflexivity|].
    assert (F : size this = (if s =? 0 then 4 else s) /\
                buckets this = repeat (Some []) (Z.to_nat (size this)) /\
                count this = 0).
    { unfold constructor, new in E. injection E as <-. repeat split. }
    destruct F as (Fs & Fb & Fc). repeat (split; [assumption|]).
    intros k v. destruct (Z.eqb_spec s 0) as [->|Hn].
    + assert (Hu : uncleared this)
        by (apply (unc_constructor (Some 0) this); [lia|exact E]).
      exact (proj1 (uncleared_total 2 this Hu (le_n 2)) k v).
    + pose proof (reachable_invariant this (reach_constructor (Some s) this E)) as Hi.
      assert (G : grow_due (count this + 1) (size this) = false)
        by (apply grow_due_false; lia).
      pose proof (setItem_quiet 2 k v this (inv_count _ Hi) (inv_size _ Hi) G) as P.
      destruct (setItem 2 k v this) as [[] this'|this'|]; cbn [returns] in P;
        [eauto|contradiction|lia].
  - intros this Hr. exact (inv_size _ (reachable_invariant this Hr)).
Qed.

Lemma constructor_accepts_zero_and_negative_size_witness :
  let this := state_of (perform_all 2 [SetItem "a" "1"; RemoveItem "a"]
                                    (constructor (Some (-3)))) in
  -3 <= 0 /\
  (exists made,
      constructor (Some (-3)) = Return tt made /\
      size made = -3 /\ buckets made = [] /\ count made = 0 /\
      forall k v, exists made', setItem 2 k v made = Return tt made') /\
  reachable this /\ size this <> 0.
Proof.
  intros this.
  assert (Hs : -3 <= 0) by lia.
  assert (Hr : reachable this).
  { pose proof (perform_all_reachable 2 [SetItem "a" "1"; RemoveItem "a"]
                  (constructor (Some (-3)))) as P.
    specialize (P ltac:(cbn; eapply reach_constructor with (size_arg := Some (-3));
                        reflexivity)).
    exact P. }
  split; [exact Hs|]. split.
  - destruct (proj1 constructor_accepts_zero_and_negative_size (-3) Hs)
      as (made & E & Fs & Fb & Fc & Ft).
    exists made. rewrite Fs in Fb. repeat (split; [assumption|]). exact Ft.
  - split; [exact Hr|].
    exact (proj2 constructor_accepts_zero_and_negative_size this Hr).
Defined.

(** ** [getItem] *)

(** C9, as stated, fails: [getItem] goes through [#getBucket], which stores
    an empty bucket where the slot of the key is unallocated.  After a growth
    to 8 and a [clear] the bucket array has 4 slots; [getItem("aa")] looks at
    index 7 and leaves an array of 8 slots, three of them holes. *)
Lemma getItem_changes_buckets_counterexample :
  let this := after [SetItem "a" "1"; SetItem "b" "2"; SetItem "c" "3"; Clear] in
  buckets this = [Some []; Some []; Some []; Some []] /\
  buckets (snd (getItem (str "aa") this)) =
    [Some []; Some []; Some []; Some []; None; None; None; Some []] /\
  snd (getItem (str "aa") this) <> this.
Proof. vm_compute. repeat split. discriminate. Qed.

(** C9, amended.  [getItem] leaves [size], [count], the console, the entries
    and what every bucket index reads as unchanged, so [keys] is unchanged
    too.  When the slot of the key holds a bucket the whole state is
    unchanged; when it does not, an empty bucket is stored there. *)
Theorem getItem_frame k this :
  let this' := snd (getItem k this) in
  let i := Z.to_nat (hash k this) in
  size this' = size this /\ count this' = count this /\
  console this' = console this /\
  flat (buckets this') = flat (buckets this) /\ keys this' = keys this /\
  (forall j, bucket_at j this' = bucket_at j this) /\
  (array_get (buckets this) i <> None -> this' = this) /\
  (array_get (buckets this) i = None ->
   buckets this' = array_set (buckets this) i []).
Proof.
  intros this' i. subst this'. rewrite getItem_state.
  unfold getBucket, keys. fold i.
  destruct (array_get (buckets this) i) eqn:E; cbn [snd].
  - repeat split; congruence.
  - cbn [size count console buckets set_buckets].
    rewrite flat_set_missing by assumption.
    repeat split; try congruence.
    intros j. unfold bucket_at. cbn [buckets set_buckets].
    destruct (Nat.eq_dec i j) as [<-|N].
    + now rewrite array_get_set_same, E.
    + now rewrite array_get_set_other.
Qed.

Lemma getItem_frame_witness :
  let this := after [SetItem "a" "1"; SetItem "b" "2"] in
  array_get (buckets this) (Z.to_nat (hash (str "a") this)) <> None /\
  fst (getItem (str "a") this) = Some (str "1") /\
  snd (getItem (str "a") this) = this.
Proof.
  intros this.
  assert (Hb : array_get (buckets this) (Z.to_nat (hash (str "a") this)) <> None)
    by (vm_compute; discriminate).
  split; [exact Hb|]. split; [vm_compute; reflexivity|].
  destruct (getItem_frame (str "a") this) as (_ & _ & _ & _ & _ & _ & H & _).
  exact (H Hb).
Defined.

(** ** Totality *)

(** C10 fails on the code.  [#getBucket] allocates a missing bucket, and it
    allocates only the slot it is asked for: an index past the end of the
    array leaves holes behind it.  [#resize] iterates over every index of the
    old array, and the iteration of a hole throws.  After a growth to 16 and a
    [clear], [setItem("aa", "x")] allocates the slot 7 and leaves the slots 4
    to 6 as holes; [removeItem("aa")] then starts a shrink and throws.  After
    a growth to 8 and a [clear], the sixth [setItem] starts a grow and
    throws. *)
Theorem resize_throws_at_hole :
  (forall setItem rest this, reinsert setItem (None :: rest) this = Throw this) /\
  (let sparse := after [SetItem "a" "1"; SetItem "b" "2"; SetItem "c" "3";
                        SetItem "d" "4"; SetItem "e" "5"; SetItem "f" "6"; Clear;
                        SetItem "aa" "x"] in
   size sparse = 16 /\
   buckets sparse =
     [Some []; Some []; Some []; Some []; None; None; None;
      Some [(str "aa", str "x")]] /\
   exists thrown, removeItem 2 (str "aa") sparse = Throw thrown) /\
  (let sparse := after [SetItem "a" "1"; SetItem "b" "2"; SetItem "c" "3"; Clear;
                        SetItem "aa" "1"; SetItem "c" "2"; SetItem "e" "3";
                        SetItem "f" "4"; SetItem "g" "5"] in
   size sparse = 8 /\ count sparse = 5 /\
   exists thrown, setItem 2 (str "h") (str "6") sparse = Throw thrown).
Proof.
  split; [reflexivity|].
  split; vm_compute; repeat split; eexists; reflexivity.
Qed.

(** ** Round trip *)

(** C7 fails on the code: in a state left by [clear] after a growth,
    [setItem] can throw out of the rebuild, for every amount of fuel, and the
    new entry is lost with the buckets behind the hole: [getItem] then finds
    nothing. *)
Theorem setItem_getItem_lost_at_hole :
  let this := after [SetItem "a" "1"; SetItem "b" "2"; SetItem "c" "3"; Clear;
                     SetItem "aa" "1"; SetItem "c" "2"; SetItem "e" "3";
                     SetItem "f" "4"; SetItem "g" "5"] in
  reachable this /\
  (forall fuel this', setItem fuel (str "ai") (str "6") this <> Return tt this') /\
  exists thrown,
    setItem 2 (str "ai") (str "6") this = Throw thrown /\
    fst (getItem (str "ai") thrown) = None.
Proof.
  intros this.
  assert (Hr : reachable this) by (apply after_reachable; vm_compute; discriminate).
  assert (Ht : setItem 2 (str "ai") (str "6") this
               = Throw (state_of (setItem 2 (str "ai") (str "6") this)))
    by (vm_compute; reflexivity).
  split; [exact Hr|]. split.
  - intros fuel this' E.
    destruct (Nat.le_ge_cases fuel 2) as [Hle|Hge].
    + rewrite (setItem_fuel_le fuel 2) in Ht by (auto; rewrite E; discriminate).
      rewrite E in Ht. discriminate.
    + rewrite (setItem_fuel_le 2 fuel) in E by (auto; rewrite Ht; discriminate).
      rewrite Ht in E. discriminate.
  - eexists. split; [exact Ht|]. vm_compute. reflexivity.
Qed.

(** * Further properties of [Hashmap] *)

Lemma step_reachable this this' : reachable this -> step this this' -> reachable this'.
Proof.
  intros Hr H. destruct H.
  - eapply reach_setItem; eauto.
  - eapply reach_setItem_throw; eauto.
  - now apply reach_getItem.
  - eapply reach_removeItem; eauto.
  - eapply reach_removeItem_throw; eauto.
  - now apply reach_clear.
  - now apply reach_keyExists.
Qed.

Lemma evolves_reachable this this' : reachable this -> evolves this this' -> reachable this'.
Proof. intros Hr H. induction H; eauto using step_reachable. Qed.

Lemma default_table_reachable : reachable default_table.
Proof. apply reach_constructor with (size_arg := None). reflexivity. Qed.

(** What one call does to [size] and to the console. *)
Lemma step_size this this' :
  invariant this -> step this this' ->
  (size this' = size this /\ console this' = console this) \/
  (0 < size this /\ size this' = size this * 2 /\
   console this' = console this ++ [size this * 2]) \/
  (10 < size this /\
   (size this' = (size this + 1) / 2 \/ size this' = (size this + 1) / 2 * 2)).
Proof.
  intros Hi H. destruct H as [fuel k v this this' E|fuel k v this this' E|k this
                             |fuel k this this' E|fuel k this this' E|this|k this].
  - pose proof (setItem_spec fuel k v this Hi) as P. rewrite E in P.
    destruct P as (_ & _ & P). destruct (stored k this); [tauto|].
    destruct (grow_due (count this + 1) (size this)) eqn:G; [|tauto].
    apply grow_due_true in G. tauto.
  - pose proof (setItem_spec fuel k v this Hi) as P. rewrite E in P.
    destruct P as (_ & _ & P). destruct (stored k this); [tauto|].
    destruct (grow_due (count this + 1) (size this)) eqn:G; [|tauto].
    apply grow_due_true in G. tauto.
  - left. rewrite getItem_state.
    destruct (getBucket_facts k this) as (_ & ? & _ & ? & _). auto.
  - pose proof (removeItem_spec fuel k this Hi) as P. rewrite E in P.
    destruct P as (_ & P). destruct (stored k this); [|tauto].
    destruct (shrink_due (count this - 1) (size this)) eqn:G; [|tauto].
    apply shrink_due_true in G. unfold rebuilt in P. tauto.
  - pose proof (removeItem_spec fuel k this Hi) as P. rewrite E in P.
    destruct P as (_ & P). destruct (stored k this); [|tauto].
    destruct (shrink_due (count this - 1) (size this)) eqn:G; [|tauto].
    apply shrink_due_true in G. unfold rebuilt in P. tauto.
  - left. split; reflexivity.
  - left. rewrite keyExists_state, getItem_state.
    destruct (getBucket_facts k this) as (_ & ? & _ & ? & _). auto.
Qed.

Lemma half_up s : 0 <= s -> s <= 2 * ((s + 1) / 2) <= s + 1.
Proof.
  intros Hs. pose proof (Z.div_mod (s + 1) 2 ltac:(lia)).
  pose proof (Z.mod_pos_bound (s + 1) 2 ltac:(lia)). lia.
Qed.

(** ** The load factor *)

(** X1. Between calls the load factor never exceeds 0.7: in every reachable
    state of positive size, [count / size <= 0.7]. *)
Theorem load_factor_bounded this :
  reachable this -> 0 < size this ->
  (inject_Z (count this) / inject_Z (size this) <= loadFactor)%Q.
Proof.
  intros Hr Hs. pose proof (reachable_invariant this Hr) as [Hc _ Hl].
  apply Qle_bool_iff.
  pose proof (Qgt_loadFactor (count this) (size this)) as G.
  rewrite Hc in G at 1. specialize (G (total_nonneg this) ltac:(lia)).
  unfold Qgt_bool in G.
  destruct (Qle_bool _ _); [reflexivity|]. cbn [negb] in G.
  symmetry in G. apply andb_true_iff in G. destruct G as [_ G].
  apply Z.ltb_lt in G. specialize (Hl Hs). lia.
Qed.

Lemma load_factor_bounded_witness :
  let this := after [SetItem "a" "1"; SetItem "b" "2"; SetItem "c" "3"] in
  reachable this /\ 0 < size this /\
  (inject_Z (count this) / inject_Z (size this) <= loadFactor)%Q.
Proof.
  intros this.
  assert (Hr : reachable this) by (apply after_reachable; vm_compute; discriminate).
  assert (Hs : 0 < size this) by (vm_compute; reflexivity).
  split; [exact Hr|]. split; [exact Hs|].
  exact (load_factor_bounded this Hr Hs).
Defined.

(** ** The sizes a table takes *)

(** X2. A table built by [new Hashmap()] only ever has a size that is a
    power of two, 4 at the least, whatever is called on it. *)
Theorem default_size_power_of_two this :
  evolves default_table this -> exists k, 2 <= k /\ size this = 2 ^ k.
Proof.
  induction 1 as [|mid this' Hev IH Hst].
  - exists 2. split; [lia|reflexivity].
  - destruct IH as (k & Hk & E).
    pose proof (reachable_invariant mid
                  (evolves_reachable _ _ default_table_reachable Hev)) as Hi.
    destruct (step_size mid this' Hi Hst) as [[H _]|[(_ & H & _)|(Hbig & H)]].
    + exists k. split; [lia|congruence].
    + exists (k + 1). split; [lia|]. rewrite H, E, Z.pow_add_r by lia. reflexivity.
    + assert (Hk4 : 4 <= k).
      { destruct (Z.le_gt_cases 4 k) as [|Hlt]; auto.
        pose proof (Z.pow_le_mono_r 2 k 3 ltac:(lia) ltac:(lia)) as Hp.
        change (2 ^ 3) with 8 in Hp. lia. }
      assert (Eh : (size mid + 1) / 2 = 2 ^ (k - 1)).
      { rewrite E. replace k with (k - 1 + 1) at 1 by lia.
        rewrite Z.pow_add_r by lia. change (2 ^ 1) with 2.
        symmetry. apply (Z.div_unique _ 2 _ 1); lia. }
      destruct H as [H|H]; rewrite Eh in H.
      * exists (k - 1). split; [lia|exact H].
      * exists k. split; [lia|]. rewrite H. replace k with (k - 1 + 1) at 2 by lia.
        rewrite Z.pow_add_r by lia. reflexivity.
Qed.

Lemma default_size_power_of_two_witness :
  let this := after [SetItem "a" "1"; SetItem "b" "2"; SetItem "c" "3"; Clear;
                     SetItem "d" "4"] in
  evolves default_table this /\ exists k, 2 <= k /\ size this = 2 ^ k.
Proof.
  intros this.
  assert (He : evolves default_table this).
  { eapply evolves_step; [eapply evolves_step; [eapply evolves_step;
      [eapply evolves_step; [eapply evolves_step; [apply evolves_refl|]|]|]|]|].
    - apply (step_setItem 2 (str "a") (str "1")). vm_compute. reflexivity.
    - apply (step_setItem 2 (str "b") (str "2")). vm_compute. reflexivity.
    - apply (step_setItem 2 (str "c") (str "3")). vm_compute. reflexivity.
    - apply step_clear.
    - apply (step_setItem 2 (str "d") (str "4")). vm_compute. reflexivity. }
  split; [exact He|]. exact (default_size_power_of_two this He).
Defined.

(** X3. No call lowers [size] below 6: from a reachable state of positive
    size, the [size] of every later state is at least the smaller of that
    size and 6.  The bound is on the [size] field, not on the length of the
    bucket array, which [clear] cuts to 4 whatever the size. *)
Theorem size_floor this this' :
  reachable this -> 0 < size this -> evolves this this' ->
  Z.min (size this) 6 <= size this'.
Proof.
  intros Hr Hs Hev. induction Hev as [|mid this' Hev IH Hst]; [lia|].
  pose proof (reachable_invariant mid (evolves_reachable _ _ Hr Hev)) as Hi.
  pose proof (half_up (size mid) ltac:(lia)) as Hh.
  destruct (step_size mid this' Hi Hst) as [[H _]|[(_ & H & _)|(Hbig & [H|H])]]; lia.
Qed.

Lemma size_floor_witness :
  let this := state_of (perform_all 2 [SetItem "a" "1"] (constructor (Some 11))) in
  let this' := state_of (removeItem 2 (str "a") this) in
  reachable this /\ 0 < size this /\ evolves this this' /\
  size this = 11 /\ size this' = 6 /\ Z.min (size this) 6 <= size this'.
Proof.
  intros this this'.
  assert (Hr : reachable this).
  { pose proof (perform_all_reachable 2 [SetItem "a" "1"] (constructor (Some 11))) as P.
    apply P. cbn. eapply reach_constructor with (size_arg := Some 11). reflexivity. }
  assert (Hs : 0 < size this) by (vm_compute; reflexivity).
  assert (He : evolves this this').
  { eapply evolves_step; [apply evolves_refl|].
    apply (step_removeItem 2 (str "a")). vm_compute. reflexivity. }
  split; [exact Hr|]. split; [exact Hs|]. split; [exact He|].
  split; [reflexivity|]. split; [reflexivity|].
  exact (size_floor this this' Hr Hs He).
Defined.

(** X4. A table of negative size is never resized and never throws:
    [setItem] and [removeItem] return, and no later call changes [size] or
    logs a resize. *)
Theorem negative_size_never_resizes this :
  reachable this -> size this < 0 ->
  (forall fuel k v, (1 <= fuel)%nat ->
                    exists this', setItem fuel k v this = Return tt this') /\
  (forall fuel k, exists this', removeItem fuel k this = Return tt this') /\
  (forall this', evolves this this' ->
                 size this' = size this /\ console this' = console this).
Proof.
  intros Hr Hs. pose proof (reachable_invariant this Hr) as Hi. split; [|split].
  - intros fuel k v Hf.
    assert (G : grow_due (count this + 1) (size this) = false)
      by (apply grow_due_false; lia).
    pose proof (setItem_quiet fuel k v this (inv_count _ Hi) (inv_size _ Hi) G) as P.
    destruct (setItem fuel k v this) as [[] this'|this'|]; cbn [returns] in P;
      [eauto|contradiction|lia].
  - intros fuel k. rewrite removeItem_step, checkUnderLoadFactor_test.
    destruct (stored k this) eqn:E; [|eauto].
    destruct (spliced_facts k this ltac:(congruence)) as (Hsz & _).
    rewrite Hsz.
    assert (G : shrink_due (count (spliced k this)) (size this) = false).
    { unfold shrink_due. destruct (Z.ltb_spec 10 (size this)); [lia|].
      apply andb_false_r. }
    rewrite G. eauto.
  - intros this' Hev. induction Hev as [|mid this' Hev IH Hst]; [auto|].
    destruct IH as [IH1 IH2].
    pose proof (reachable_invariant mid (evolves_reachable _ _ Hr Hev)) as Him.
    destruct (step_size mid this' Him Hst) as [[H1 H2]|[(H & _)|(H & _)]];
      [split; congruence|lia|lia].
Qed.

Lemma negative_size_never_resizes_witness :
  let this := state_of (perform_all 2 [SetItem "a" "1"; SetItem "b" "2"]
                                    (constructor (Some (-3)))) in
  reachable this /\ size this < 0 /\
  (forall fuel k v, (1 <= fuel)%nat ->
                    exists this', setItem fuel k v this = Return tt this') /\
  (forall fuel k, exists this', removeItem fuel k this = Return tt this') /\
  (forall this', evolves this this' ->
                 size this' = size this /\ console this' = console this).
Proof.
  intros this.
  assert (Hr : reachable this).
  { pose proof (perform_all_reachable 2 [SetItem "a" "1"; SetItem "b" "2"]
                  (constructor (Some (-3)))) as P.
    apply P. cbn. eapply reach_constructor with (size_arg := Some (-3)). reflexivity. }
  assert (Hs : size this < 0) by (vm_compute; reflexivity).
  split; [exact Hr|]. split; [exact Hs|].
  exact (negative_size_never_resizes this Hr Hs).
Defined.

(** ** The bucket index *)

(** X5. The bucket index of every key lies within the table: it is at least
    0 and below the absolute value of [size]. *)
Theorem bucket_index_in_range key this :
  size this <> 0 -> 0 <= hash key this < Z.abs (size this).
Proof.
  intros Hs. unfold hash. pose proof (hash32_range key) as Hr.
  destruct (Z.lt_trichotomy (size this) 0) as [Hn|[H0|Hp]]; [|contradiction|].
  - rewrite <- (Z.opp_involutive (size this)), Z.rem_opp_r by lia.
    rewrite Z.abs_opp, Z.abs_eq by lia.
    apply Z.rem_bound_pos; lia.
  - rewrite Z.abs_eq by lia. apply Z.rem_bound_pos; lia.
Qed.

Lemma bucket_index_in_range_witness :
  let this := state_of (constructor (Some (-3))) in
  size this <> 0 /\ 0 <= hash (str "a") this < Z.abs (size this).
Proof.
  intros this.
  assert (Hs : size this <> 0) by (vm_compute; discriminate).
  split; [exact Hs|]. exact (bucket_index_in_range (str "a") this Hs).
Defined.

(** ** Where the entries are *)

Lemma stored_in k v this :
  placed this -> stored k this = Some v <-> In (k, v) (flat (buckets this)).
Proof.
  intros Hp. rewrite stored_find by assumption. unfold find.
  apply bucket_find_in. apply Hp.
Qed.

(** X6. In every reachable state each entry sits in the bucket whose index
    is the hash of its key, and [getItem] returns a value exactly when the
    table holds that entry. *)
Theorem entries_in_their_buckets this :
  reachable this ->
  (forall i b k v, array_get (buckets this) i = Some b -> In (k, v) b ->
                   hash k this = Z.of_nat i) /\
  (forall k v, fst (getItem k this) = Some v <-> In (k, v) (flat (buckets this))).
Proof.
  intros Hr. pose proof (reachable_placed this Hr) as Hp. split.
  - intros i b k v Hget Hin. rewrite <- (placed_index _ Hp i b k v Hget Hin).
    destruct (hash_index k this). lia.
  - intros k v. rewrite getItem_stored. now apply stored_in.
Qed.

Lemma entries_in_their_buckets_witness :
  let this := after [SetItem "a" "1"; SetItem "b" "2"; SetItem "c" "3"] in
  reachable this /\
  (forall i b k v, array_get (buckets this) i = Some b -> In (k, v) b ->
                   hash k this = Z.of_nat i) /\
  (forall k v, fst (getItem k this) = Some v <-> In (k, v) (flat (buckets this))).
Proof.
  intros this.
  assert (Hr : reachable this) by (apply after_reachable; vm_compute; discriminate).
  split; [exact Hr|]. exact (entries_in_their_buckets this Hr).
Defined.

Lemma keyExists_stored k this :
  fst (keyExists k this) = true <-> stored k this <> None.
Proof.
  unfold keyExists. rewrite <- getItem_stored.
  destruct (getItem k this) as [[v|] this1]; cbn; split; congruence.
Qed.

Lemma keys_length this : Z.of_nat (length (keys this)) = total this.
Proof. unfold keys, total. now rewrite length_map. Qed.

(** X7. In every reachable state [keys] has no duplicates, lists exactly the
    keys for which [keyExists] is true, and has [count] elements. *)
Theorem keys_lists_present_keys this :
  reachable this ->
  NoDup (keys this) /\
  (forall k, In k (keys this) <-> fst (keyExists k this) = true) /\
  Z.of_nat (length (keys this)) = count this.
Proof.
  intros Hr. destruct (keys_exact this Hr) as [Hn Hk]. split; [exact Hn|]. split.
  - intros k. rewrite Hk, keyExists_stored, getItem_stored. tauto.
  - rewrite keys_length. symmetry. apply (reachable_invariant this Hr).
Qed.

Lemma keys_lists_present_keys_witness :
  let this := after [SetItem "a" "1"; SetItem "b" "2"; SetItem "c" "3"; RemoveItem "b"] in
  reachable this /\
  NoDup (keys this) /\
  (forall k, In k (keys this) <-> fst (keyExists k this) = true) /\
  Z.of_nat (length (keys this)) = count this.
Proof.
  intros this.
  assert (Hr : reachable this) by (apply after_reachable; vm_compute; discriminate).
  split; [exact Hr|]. exact (keys_lists_present_keys this Hr).
Defined.

(** ** Writing *)

Lemma replaced_keys k v this :
  placed this -> keys (replaced k v this) = keys this.
Proof.
  intros Hp. unfold replaced, keys.
  destruct (getBucket_view k this Hp) as (Hi & Hp1 & _ & Hh & Hat & _).
  destruct (getBucket_placed k this Hp) as [_ Hfl].
  destruct (getBucket k this) as [i this1]; cbn [fst snd] in *. subst i.
  rewrite <- Hfl. rewrite <- Hh.
  destruct (bucket_replace _ k v) as [b'|] eqn:E; [|reflexivity].
  destruct (bucket_replace_spec _ _ _ _ E) as (Hm & _).
  destruct (slot_view k this1 Hp1) as (pre & post & H1 & H2 & _).
  cbn [buckets set_buckets]. rewrite H2, H1, !map_app, Hm. reflexivity.
Qed.

(** X8. [setItem] on a key that is present replaces the value in place: it
    returns whatever the fuel and the state of the bucket array, runs no
    resize check, leaves [count], [size] and the order of [keys] as they
    were, and afterwards [getItem] finds the new value while every other
    key reads as before. *)
Theorem setItem_overwrites fuel k v this :
  reachable this -> fst (getItem k this) <> None ->
  exists this',
    setItem (S fuel) k v this = Return tt this' /\
    count this' = count this /\ size this' = size this /\
    console this' = console this /\ keys this' = keys this /\
    fst (getItem k this') = Some v /\
    forall k', k' <> k -> fst (getItem k' this') = fst (getItem k' this).
Proof.
  intros Hr Hk. pose proof (reachable_placed this Hr) as Hp.
  rewrite getItem_stored in Hk.
  exists (replaced k v this). rewrite setItem_step.
  destruct (stored k this) eqn:E; [clear Hk|congruence].
  destruct (replaced_facts k v this) as (Hsz & Hcn & Hco & _).
  destruct (replaced_sound k v this Hp ltac:(congruence)) as [Hp' Hf].
  repeat split; auto using replaced_keys.
  - rewrite getItem_stored, stored_find, Hf by assumption.
    now destruct (jsString_eq_dec k k).
  - intros k' N. rewrite !getItem_stored, !stored_find, Hf by assumption.
    now destruct (jsString_eq_dec k' k).
Qed.

Lemma setItem_overwrites_witness :
  let this := after [SetItem "a" "1"; SetItem "b" "2"] in
  reachable this /\ fst (getItem (str "a") this) <> None /\
  exists this',
    setItem 1 (str "a") (str "9") this = Return tt this' /\
    count this' = count this /\ size this' = size this /\
    console this' = console this /\ keys this' = keys this /\
    fst (getItem (str "a") this') = Some (str "9") /\
    forall k', k' <> str "a" -> fst (getItem k' this') = fst (getItem k' this).
Proof.
  intros this.
  assert (Hr : reachable this) by (apply after_reachable; vm_compute; discriminate).
  assert (Hk : fst (getItem (str "a") this) <> None) by (vm_compute; discriminate).
  split; [exact Hr|]. split; [exact Hk|].
  exact (setItem_overwrites O (str "a") (str "9") this Hr Hk).
Defined.

Lemma find_keys k this : find k this <> None <-> In k (keys this).
Proof.
  unfold find, keys. pose proof (bucket_find_none (flat (buckets this)) k) as H.
  destruct (bucket_find (flat (buckets this)) k).
  - split; [|discriminate]. intros _.
    destruct (in_dec jsString_eq_dec k (map fst (flat (buckets this)))); auto.
    apply H in n. discriminate.
  - split; [congruence|]. intros Hin. now apply H in Hin.
Qed.

(** X9. When [setItem] of an absent key returns, after a rebuild or without
    one, the table holds the old keys and the new one and nothing else:
    [keys] is a permutation of the new key followed by the old keys, [count]
    is one more, [getItem] finds the value, and every other key reads as
    before. *)
Theorem setItem_adds_one_entry fuel k v this this' :
  reachable this -> fst (getItem k this) = None ->
  setItem fuel k v this = Return tt this' ->
  Permutation (keys this') (k :: keys this) /\
  count this' = count this + 1 /\
  fst (getItem k this') = Some v /\
  forall k', k' <> k -> fst (getItem k' this') = fst (getItem k' this).
Proof.
  intros Hr Hk E. pose proof (reachable_placed this Hr) as Hp.
  assert (Hr' : reachable this') by (eapply reach_setItem; eauto).
  pose proof (reachable_placed this' Hr') as Hp'.
  pose proof (setItem_sound fuel k v this Hp) as P. rewrite E in P.
  destruct P as [_ Hf].
  rewrite getItem_stored, stored_find in Hk by assumption.
  assert (Hperm : Permutation (keys this') (k :: keys this)).
  { apply NoDup_Permutation.
    - apply Hp'.
    - constructor; [|apply Hp]. rewrite <- find_keys. tauto.
    - intros k'. cbn [In]. rewrite <- !find_keys, Hf.
      destruct (jsString_eq_dec k' k) as [->|N].
      + split; [auto|]. intros _. discriminate.
      + split; [auto|]. intros [->|H]; [contradiction|exact H]. }
  split; [exact Hperm|]. split.
  - rewrite (inv_count _ (reachable_invariant this Hr)),
            (inv_count _ (reachable_invariant this' Hr')), <- !keys_length.
    rewrite (Permutation_length Hperm). cbn [length]. lia.
  - split.
    + rewrite getItem_stored, stored_find, Hf by assumption.
      now destruct (jsString_eq_dec k k).
    + intros k' N. rewrite !getItem_stored, !stored_find, Hf by assumption.
      now destruct (jsString_eq_dec k' k).
Qed.

Lemma setItem_adds_one_entry_witness :
  let this := after [SetItem "a" "1"; SetItem "b" "2"] in
  let this' := state_of (setItem 2 (str "c") (str "3") this) in
  reachable this /\ fst (getItem (str "c") this) = None /\
  setItem 2 (str "c") (str "3") this = Return tt this' /\
  Permutation (keys this') (str "c" :: keys this) /\
  count this' = count this + 1 /\
  fst (getItem (str "c") this') = Some (str "3") /\
  forall k', k' <> str "c" -> fst (getItem k' this') = fst (getItem k' this).
Proof.
  intros this this'.
  assert (Hr : reachable this) by (apply after_reachable; vm_compute; discriminate).
  assert (Hk : fst (getItem (str "c") this) = None) by (vm_compute; reflexivity).
  assert (E : setItem 2 (str "c") (str "3") this = Return tt this')
    by (vm_compute; reflexivity).
  split; [exact Hr|]. split; [exact Hk|]. split; [exact E|].
  exact (setItem_adds_one_entry 2 (str "c") (str "3") this this' Hr Hk E).
Defined.

(** ** Removing *)

(** X10. When [removeItem] of a present key returns, after a rebuild or
    without one, exactly that key is gone: the old [keys] are a permutation
    of the key followed by the new [keys], [count] is one less, [getItem]
    and [keyExists] no longer find the key, and every other key reads as
    before. *)
Theorem removeItem_removes_one_entry fuel k this this' :
  reachable this -> fst (getItem k this) <> None ->
  removeItem fuel k this = Return tt this' ->
  Permutation (keys this) (k :: keys this') /\
  count this' = count this - 1 /\
  fst (getItem k this') = None /\ fst (keyExists k this') = false /\
  forall k', k' <> k -> fst (getItem k' this') = fst (getItem k' this).
Proof.
  intros Hr Hk E. pose proof (reachable_placed this Hr) as Hp.
  assert (Hr' : reachable this') by (eapply reach_removeItem; eauto).
  pose proof (reachable_placed this' Hr') as Hp'.
  pose proof (removeItem_sound fuel k this Hp) as P. rewrite E in P.
  destruct P as [_ Hf].
  rewrite getItem_stored, stored_find in Hk by assumption.
  assert (Hnone : fst (getItem k this') = None).
  { rewrite getItem_stored, stored_find, Hf by assumption.
    now destruct (jsString_eq_dec k k). }
  assert (Hperm : Permutation (keys this) (k :: keys this')).
  { apply NoDup_Permutation.
    - apply Hp.
    - constructor; [|apply Hp']. rewrite <- find_keys, Hf.
      destruct (jsString_eq_dec k k); tauto.
    - intros k'. cbn [In]. rewrite <- !find_keys, Hf.
      destruct (jsString_eq_dec k' k) as [->|N].
      + split; [auto|]. intros _. exact Hk.
      + split; [auto|]. intros [->|H]; [contradiction|exact H]. }
  split; [exact Hperm|]. split.
  - rewrite (inv_count _ (reachable_invariant this Hr)),
            (inv_count _ (reachable_invariant this' Hr')), <- !keys_length.
    rewrite (Permutation_length Hperm). cbn [length]. lia.
  - split; [exact Hnone|]. split.
    + pose proof (keyExists_stored k this') as Hx. rewrite <- getItem_stored, Hnone in Hx.
      destruct (fst (keyExists k this')); [|reflexivity]. destruct Hx as [Hx _].
      now contradiction Hx.
    + intros k' N. rewrite !getItem_stored, !stored_find, Hf by assumption.
      now destruct (jsString_eq_dec k' k).
Qed.

Lemma removeItem_removes_one_entry_witness :
  let this := after [SetItem "a" "1"; SetItem "b" "2"; SetItem "c" "3"; SetItem "d" "4";
                     SetItem "e" "5"; SetItem "f" "6"; SetItem "g" "7"] in
  let this' := state_of (removeItem 2 (str "a") this) in
  reachable this /\ fst (getItem (str "a") this) <> None /\
  removeItem 2 (str "a") this = Return tt this' /\
  Permutation (keys this) (str "a" :: keys this') /\
  count this' = count this - 1 /\
  fst (getItem (str "a") this') = None /\ fst (keyExists (str "a") this') = false /\
  forall k', k' <> str "a" -> fst (getItem k' this') = fst (getItem k' this).
Proof.
  intros this this'.
  assert (Hr : reachable this) by (apply after_reachable; vm_compute; discriminate).
  assert (Hk : fst (getItem (str "a") this) <> None) by (vm_compute; discriminate).
  assert (E : removeItem 2 (str "a") this = Return tt this')
    by (vm_compute; reflexivity).
  split; [exact Hr|]. split; [exact Hk|]. split; [exact E|].
  exact (removeItem_removes_one_entry 2 (str "a") this this' Hr Hk E).
Defined.

(** X11. [removeItem] of an absent key returns whatever the fuel and removes
    nothing: [size], [count], the console and the entries are as before,
    and its only write is the empty bucket that [#getBucket] may allocate. *)
Theorem removeItem_absent_key fuel k this :
  fst (getItem k this) = None ->
  removeItem fuel k this = Return tt (snd (getBucket k this)) /\
  size (snd (getBucket k this)) = size this /\
  count (snd (getBucket k this)) = count this /\
  console (snd (getBucket k this)) = console this /\
  flat (buckets (snd (getBucket k this))) = flat (buckets this).
Proof.
  intros Hk. rewrite getItem_stored in Hk. rewrite removeItem_step, Hk.
  destruct (getBucket_facts k this) as (_ & Hsz & Hcn & Hco & _).
  repeat split; auto.
  unfold getBucket.
  destruct (array_get (buckets this) (Z.to_nat (hash k this))) eqn:E; cbn [snd]; auto.
  cbn [buckets set_buckets]. now apply flat_set_missing.
Qed.

Lemma removeItem_absent_key_witness :
  let this := after [SetItem "a" "1"; SetItem "b" "2"] in
  fst (getItem (str "zz") this) = None /\
  removeItem 0 (str "zz") this = Return tt (snd (getBucket (str "zz") this)) /\
  size (snd (getBucket (str "zz") this)) = size this /\
  count (snd (getBucket (str "zz") this)) = count this /\
  console (snd (getBucket (str "zz") this)) = console this /\
  flat (buckets (snd (getBucket (str "zz") this))) = flat (buckets this).
Proof.
  intros this.
  assert (Hk : fst (getItem (str "zz") this) = None) by (vm_compute; reflexivity).
  split; [exact Hk|]. exact (removeItem_absent_key O (str "zz") this Hk).
Defined.

(** ** Tables that were never cleared *)

(** X12. On a table built with a size that is not negative and never
    cleared, the bucket array has exactly [size] slots and no hole, and
    neither [setItem] nor [removeItem] throws. *)
Theorem never_cleared_never_throws fuel this :
  uncleared this -> (2 <= fuel)%nat ->
  length (buckets this) = Z.to_nat (size this) /\
  ~ In None (buckets this) /\
  (forall k v, exists this', setItem fuel k v this = Return tt this') /\
  (forall k, exists this', removeItem fuel k this = Return tt this').
Proof.
  intros Hu Hf. destruct (uncleared_dense this Hu) as [_ Hl Hs].
  split; [exact Hl|]. split.
  - intros Hin. rewrite Forall_forall in Hs. now apply (Hs None Hin).
  - exact (uncleared_total fuel this Hu Hf).
Qed.

Lemma never_cleared_never_throws_witness :
  let this := after [SetItem "a" "1"; SetItem "b" "2"; SetItem "c" "3"] in
  uncleared this /\
  length (buckets this) = Z.to_nat (size this) /\
  ~ In None (buckets this) /\
  (forall k v, exists this', setItem 2 k v this = Return tt this') /\
  (forall k, exists this', removeItem 2 k this = Return tt this').
Proof.
  intros this.
  assert (H0 : uncleared default_table)
    by (eapply unc_constructor with (size_arg := None); [exact I|reflexivity]).
  assert (H1 : uncleared (after [SetItem "a" "1"]))
    by (apply (unc_setItem 2 (str "a") (str "1") default_table);
        [exact H0|vm_compute; reflexivity]).
  assert (H2 : uncleared (after [SetItem "a" "1"; SetItem "b" "2"]))
    by (apply (unc_setItem 2 (str "b") (str "2") (after [SetItem "a" "1"]));
        [exact H1|vm_compute; reflexivity]).
  assert (Hu : uncleared this)
    by (apply (unc_setItem 2 (str "c") (str "3") (after [SetItem "a" "1"; SetItem "b" "2"]));
        [exact H2|vm_compute; reflexivity]).
  split; [exact Hu|]. exact (never_cleared_never_throws 2 this Hu (le_n 2)).
Defined.

(** ** After [clear] *)

Lemma bucket_at_empty n i this :
  buckets this = repeat (Some []) n -> bucket_at i this = [].
Proof.
  intros E. unfold bucket_at, array_get. rewrite E.
  destruct (nth_error _ i) as [[b|]|] eqn:H; auto.
  apply nth_error_In, repeat_spec in H. congruence.
Qed.

(** X13. After [clear], whatever the state before, the table holds nothing:
    [getItem] and [keyExists] find no key, [keys] is empty and [count]
    is 0. *)
Theorem clear_empties_table this :
  (forall k, fst (getItem k (clear this)) = None /\
             fst (keyExists k (clear this)) = false) /\
  keys (clear this) = [] /\ count (clear this) = 0.
Proof.
  assert (H : forall k, stored k (clear this) = None).
  { intros k. unfold stored. now rewrite (bucket_at_empty 4). }
  split; [|split; reflexivity].
  intros k. split; [now rewrite getItem_stored|].
  pose proof (keyExists_stored k (clear this)) as Hx. rewrite H in Hx.
  destruct (fst (keyExists k (clear this))); [|reflexivity].
  destruct Hx as [Hx _]. now contradiction Hx.
Qed.

(** ** Keys of one character *)

Lemma all_below_spec n P c : all_below n P = true -> 0 <= c < n -> P c = true.
Proof.
  unfold all_below. intros A Hc. rewrite iter_nat_of_Z in A by lia.
  assert (I : forall m,
             let s := Nat.iter m (fun s => (fst s && P (snd s), snd s + 1)) (true, 0) in
             snd s = Z.of_nat m /\
             (fst s = true -> forall c, 0 <= c < Z.of_nat m -> P c = true)).
  { intros m. apply Nat.iter_ind.
    - cbn. split; [reflexivity|]. intros _ c0 H0. lia.
    - intros k [b z] [Hz Hb]. cbn [fst snd] in *. split; [lia|].
      intros Ht c0 H0. apply andb_true_iff in Ht. destruct Ht as [Ht Hp].
      destruct (Z.eq_dec c0 z) as [->|N]; [exact Hp|]. apply Hb; [exact Ht|lia]. }
  destruct (I (Z.abs_nat n)) as [_ Hb]. apply Hb; [exact A|]. lia.
Qed.

Lemma one_unit_hashes_checked :
  all_below 65536 (fun c => hash32 [c] mod 4 =? 0) = true.
Proof. vm_compute. reflexivity. Qed.

(** X14. The rounding of the binary64 product costs the two low bits of the
    hash of every key of one code unit: the hash is a multiple of 4, so in a
    table of size 4 all such keys share bucket 0. *)
Theorem one_unit_keys_share_a_bucket c this :
  0 <= c < 65536 ->
  hash32 [c] mod 4 = 0 /\ (size this = 4 -> hash [c] this = 0).
Proof.
  intros Hc.
  pose proof (all_below_spec _ _ c one_unit_hashes_checked Hc) as H.
  cbv beta in H. apply Z.eqb_eq in H.
  split; [exact H|]. intros Hs.
  destruct (hash_index [c] this) as [_ Hm]. rewrite Hm, Hs by lia. exact H.
Qed.

Lemma one_unit_keys_share_a_bucket_witness :
  0 <= 122 < 65536 /\
  hash32 [122] mod 4 = 0 /\ (size default_table = 4 -> hash [122] default_table = 0).
Proof.
  assert (Hc : 0 <= 122 < 65536) by lia.
  split; [exact Hc|]. exact (one_unit_keys_share_a_bucket 122 default_table Hc).
Defined.

(** * The classes in front of [Hashmap] *)

Lemma Set_has_in s k : Set_has s k = true <-> In k s.
Proof.
  unfold Set_has. destruct (in_dec jsString_eq_dec k s); split; auto; discriminate.
Qed.

Lemma Set_add_in s k k' : In k' (Set_add s k) <-> k' = k \/ In k' s.
Proof.
  unfold Set_add. destruct (Set_has s k) eqn:E.
  - apply Set_has_in in E. split; [auto|]. intros [->|H]; auto.
  - rewrite in_app_iff. cbn [In]. split.
    + intros [H|[H|[]]]; auto.
    + intros [H|H]; auto.
Qed.

Lemma Set_add_nodup s k : NoDup s -> NoDup (Set_add s k).
Proof.
  intros Hn. unfold Set_add. destruct (Set_has s k) eqn:E; [exact Hn|].
  assert (Hk : ~ In k s).
  { intros H. apply Set_has_in in H. congruence. }
  clear E. induction Hn as [|x l Hx Hl IH]; cbn [app].
  - constructor; [intros []|constructor].
  - constructor.
    + rewrite in_app_iff. cbn [In]. intros [H|[H|[]]]; [auto|].
      apply Hk. left. now symmetry.
    + apply IH. intros H. apply Hk. now right.
Qed.

Lemma Set_delete_in s k k' : In k' (Set_delete s k) <-> In k' s /\ k' <> k.
Proof.
  unfold Set_delete. rewrite filter_In.
  destruct (jsString_eq_dec k' k); split; intros [H1 H2]; split; auto; congruence.
Qed.

Lemma Set_delete_nodup s k : NoDup s -> NoDup (Set_delete s k).
Proof. apply NoDup_filter. Qed.

Lemma getItem_present_frame k this :
  stored k this <> None -> snd (getItem k this) = this.
Proof.
  unfold stored, bucket_at, getItem, getBucket.
  destruct (array_get (buckets this) (Z.to_nat (hash k this))); cbn [snd]; auto.
  intros H. now elim H.
Qed.

Lemma empty_find k this :
  reachable this -> count this = 0 -> find k this = None.
Proof.
  intros Hr Hc. destruct (find k this) eqn:E; [|reflexivity].
  assert (Hin : In k (keys this)) by (apply find_keys; congruence).
  pose proof (keys_length this) as Hl.
  rewrite <- (inv_count _ (reachable_invariant _ Hr)), Hc in Hl.
  destruct (keys this); [destruct Hin|discriminate].
Qed.

Lemma returned_coherent this : CS.returned this -> coherent this.
Proof.
  induction 1 as [this E|fuel k v this this' Hr IH E|k this Hr IH
                 |fuel k this this' Hr IH E|this Hr IH].
  - unfold CS.constructor in E. destruct (constructor None) as [[] h|h|] eqn:Eh;
      inversion E; subst this.
    assert (R : reachable h) by exact (reach_constructor None h Eh).
    split; cbn [CS.storage CS.keyCache]; [exact R|constructor|].
    intros k. rewrite (empty_find k h R); [|now inversion Eh].
    split; [intros []|congruence].
  - destruct IH as [R N K]. unfold CS.setItem in E.
    destruct (setItem fuel k v (CS.storage this)) as [[] h|h|] eqn:Eh;
      inversion E; subst this'.
    pose proof (setItem_sound fuel k v _ (reachable_placed _ R)) as Hs.
    rewrite Eh in Hs. destruct Hs as [_ Hf].
    split; cbn [CS.storage CS.keyCache].
    + exact (reach_setItem fuel k v _ h R Eh).
    + now apply Set_add_nodup.
    + intros k'. rewrite Set_add_in, Hf, K.
      destruct (jsString_eq_dec k' k); split; auto; try congruence.
      * intros [H|H]; [contradiction|exact H].
  - destruct IH as [R N K]. unfold CS.getItem.
    destruct (Set_has (CS.keyCache this) k); [|now split].
    pose proof (getItem_state k (CS.storage this)) as Hst.
    destruct (getItem k (CS.storage this)) as [r h] eqn:Eh. cbn [snd] in *.
    split; cbn [CS.storage CS.keyCache].
    + replace h with (snd (getItem k (CS.storage this))) by now rewrite Eh.
      now apply reach_getItem.
    + exact N.
    + intros k'. rewrite Hst, getBucket_find. apply K.
  - destruct IH as [R N K]. unfold CS.removeItem in E.
    destruct (Set_has (CS.keyCache this) k); [|inversion E; subst; now split].
    destruct (removeItem fuel k (CS.storage this)) as [[] h|h|] eqn:Eh;
      inversion E; subst this'.
    pose proof (removeItem_sound fuel k _ (reachable_placed _ R)) as Hs.
    rewrite Eh in Hs. destruct Hs as [_ Hf].
    split; cbn [CS.storage CS.keyCache].
    + exact (reach_removeItem fuel k _ h R Eh).
    + now apply Set_delete_nodup.
    + intros k'. rewrite Set_delete_in, Hf, K.
      destruct (jsString_eq_dec k' k); split; try tauto; try congruence.
  - destruct IH as [R N K].
    split; cbn [CS.clear CS.storage CS.keyCache].
    + now apply reach_clear.
    + constructor.
    + intros k. rewrite (empty_find k _ (reach_clear _ R)); [|reflexivity].
      split; [intros []|congruence].
Qed.

Lemma never_cleared_returned this : CS.never_cleared this -> CS.returned this.
Proof.
  induction 1.
  - now apply CS.ret_constructor.
  - eapply CS.ret_setItem; eauto.
  - now apply CS.ret_getItem.
  - eapply CS.ret_removeItem; eauto.
Qed.

Lemma never_cleared_uncleared this :
  CS.never_cleared this -> uncleared (CS.storage this).
Proof.
  induction 1 as [this E|fuel k v this this' Hr IH E|k this Hr IH
                 |fuel k this this' Hr IH E].
  - unfold CS.constructor in E. destruct (constructor None) as [[] h|h|] eqn:Eh;
      inversion E; subst this.
    exact (unc_constructor None h I Eh).
  - unfold CS.setItem in E.
    destruct (setItem fuel k v (CS.storage this)) as [[] h|h|] eqn:Eh;
      inversion E; subst this'.
    exact (unc_setItem fuel k v _ h IH Eh).
  - unfold CS.getItem. destruct (Set_has (CS.keyCache this) k); [|exact IH].
    destruct (getItem k (CS.storage this)) as [r h] eqn:Eh. cbn [snd CS.storage].
    replace h with (snd (getItem k (CS.storage this))) by now rewrite Eh.
    now apply unc_getItem.
  - unfold CS.removeItem in E.
    destruct (Set_has (CS.keyCache this) k); [|inversion E; subst; exact IH].
    destruct (removeItem fuel k (CS.storage this)) as [[] h|h|] eqn:Eh;
      inversion E; subst this'.
    exact (unc_removeItem fuel k _ h IH Eh).
Qed.

Lemma coherent_getItem k this :
  coherent this ->
  CS.getItem k this = (find k (CS.storage this), this).
Proof.
  intros [R N K]. pose proof (reachable_placed _ R) as Hp.
  unfold CS.getItem. destruct (Set_has (CS.keyCache this) k) eqn:E.
  - apply Set_has_in, K in E. rewrite <- (stored_find k _ Hp) in E.
    pose proof (getItem_present_frame k _ E) as Hs.
    pose proof (getItem_stored k (CS.storage this)) as Hv.
    destruct (getItem k (CS.storage this)) as [r h]. cbn [fst snd] in *.
    subst. rewrite (stored_find k _ Hp). now destruct this.
  - destruct (find k (CS.storage this)) eqn:F; [|reflexivity].
    assert (H : In k (CS.keyCache this)) by (apply K; congruence).
    apply Set_has_in in H. congruence.
Qed.

(** ** The key cache *)

(** X15. In every state that returning calls lead to, the key cache of
    [CentralisedStorage] holds exactly the keys of the hashmap behind it:
    [keyExists] answers as the hashmap's [keyExists], and [keys] lists each
    key of the hashmap once, in some order. *)
Theorem key_cache_matches_hashmap this :
  CS.returned this ->
  NoDup (CS.keys this) /\
  (forall k, CS.keyExists k this = fst (keyExists k (CS.storage this))) /\
  Permutation (CS.keys this) (keys (CS.storage this)) /\
  Z.of_nat (length (CS.keys this)) = count (CS.storage this).
Proof.
  intros Hr. destruct (returned_coherent this Hr) as [R N K].
  pose proof (reachable_placed _ R) as Hp.
  assert (Hperm : Permutation (CS.keys this) (keys (CS.storage this))).
  { apply NoDup_Permutation; [exact N|exact (placed_nodup _ Hp)|].
    intros k. unfold CS.keys. now rewrite K, find_keys. }
  split; [exact N|]. split; [|split; [exact Hperm|]].
  - intros k. unfold CS.keyExists.
    destruct (fst (keyExists k (CS.storage this))) eqn:E.
    + apply Set_has_in, K. rewrite <- (stored_find k _ Hp).
      now apply keyExists_stored.
    + destruct (Set_has (CS.keyCache this) k) eqn:F; [|reflexivity].
      apply Set_has_in, K in F. rewrite <- (stored_find k _ Hp) in F.
      apply keyExists_stored in F. congruence.
  - rewrite (Permutation_length Hperm), keys_length.
    symmetry. exact (inv_count _ (reachable_invariant _ R)).
Qed.

(** X16. [getItem] of [CentralisedStorage] returns what the hashmap's
    [getItem] returns and leaves the whole object as it was, the hashmap
    included: the key cache keeps the hashmap from being asked for a key
    it does not hold. *)
Theorem facade_getItem_changes_nothing k this :
  CS.returned this ->
  fst (CS.getItem k this) = fst (getItem k (CS.storage this)) /\
  snd (CS.getItem k this) = this.
Proof.
  intros Hr. pose proof (returned_coherent this Hr) as Hc.
  rewrite (coherent_getItem k this Hc). cbn [fst snd]. split; [|reflexivity].
  rewrite getItem_stored. symmetry.
  exact (stored_find k _ (reachable_placed _ (coh_reachable _ Hc))).
Qed.

Lemma key_cache_matches_hashmap_witness :
  let this := CS.mk (after [SetItem "a" "1"]) [str "a"] in
  CS.returned this /\
  NoDup (CS.keys this) /\
  (forall k, CS.keyExists k this = fst (keyExists k (CS.storage this))) /\
  Permutation (CS.keys this) (keys (CS.storage this)) /\
  Z.of_nat (length (CS.keys this)) = count (CS.storage this).
Proof.
  intros this.
  assert (Hr : CS.returned this).
  { apply (CS.ret_setItem 2 (str "a") (str "1") (CS.mk default_table [])).
    - apply CS.ret_constructor. reflexivity.
    - vm_compute. reflexivity. }
  split; [exact Hr|]. exact (key_cache_matches_hashmap this Hr).
Defined.

Lemma facade_getItem_changes_nothing_witness :
  let this := CS.mk (after [SetItem "a" "1"]) [str "a"] in
  CS.returned this /\
  fst (CS.getItem (str "a") this) = fst (getItem (str "a") (CS.storage this)) /\
  snd (CS.getItem (str "a") this) = this.
Proof.
  intros this.
  assert (Hr : CS.returned this).
  { apply (CS.ret_setItem 2 (str "a") (str "1") (CS.mk default_table [])).
    - apply CS.ret_constructor. reflexivity.
    - vm_compute. reflexivity. }
  split; [exact Hr|]. exact (facade_getItem_changes_nothing (str "a") this Hr).
Defined.

(** ** [Bakery] *)

Lemma bakery_returned b : Bakery.returned b -> CS.returned (Bakery.storage b).
Proof.
  induction 1 as [b E|fuel k v b b' Hr IH E|k b Hr IH|fuel k b b' Hr IH E|b Hr IH].
  - unfold Bakery.constructor in E.
    destruct CS.constructor as [[] s|s|] eqn:Es; inversion E; subst b.
    now apply CS.ret_constructor.
  - unfold Bakery.set in E.
    destruct (CS.setItem fuel k v (Bakery.storage b)) as [[] s|s|] eqn:Es;
      inversion E; subst b'.
    exact (CS.ret_setItem fuel k v _ s IH Es).
  - unfold Bakery.get.
    pose proof (CS.ret_getItem k _ IH) as H.
    now destruct (CS.getItem k (Bakery.storage b)).
  - unfold Bakery.remove in E.
    destruct (CS.removeItem fuel k (Bakery.storage b)) as [[] s|s|] eqn:Es;
      inversion E; subst b'.
    exact (CS.ret_removeItem fuel k _ s IH Es).
  - now apply CS.ret_clear.
Qed.

Lemma bakery_never_cleared b :
  Bakery.never_cleared b -> CS.never_cleared (Bakery.storage b).
Proof.
  induction 1 as [b E|fuel k v b b' Hr IH E|k b Hr IH|fuel k b b' Hr IH E].
  - unfold Bakery.constructor in E.
    destruct CS.constructor as [[] s|s|] eqn:Es; inversion E; subst b.
    now apply CS.nc_constructor.
  - unfold Bakery.set in E.
    destruct (CS.setItem fuel k v (Bakery.storage b)) as [[] s|s|] eqn:Es;
      inversion E; subst b'.
    exact (CS.nc_setItem fuel k v _ s IH Es).
  - unfold Bakery.get.
    pose proof (CS.nc_getItem k _ IH) as H.
    now destruct (CS.getItem k (Bakery.storage b)).
  - unfold Bakery.remove in E.
    destruct (CS.removeItem fuel k (Bakery.storage b)) as [[] s|s|] eqn:Es;
      inversion E; subst b'.
    exact (CS.nc_removeItem fuel k _ s IH Es).
Qed.

Lemma bakery_get k b :
  Bakery.returned b -> Bakery.get k b = (find k (table b), b).
Proof.
  intros Hr. unfold Bakery.get.
  rewrite (coherent_getItem k _ (returned_coherent _ (bakery_returned b Hr))).
  now destruct b.
Qed.

Lemma bakery_set_find fuel k v b b' :
  Bakery.returned b -> Bakery.set fuel k v b = Returned tt b' ->
  Bakery.keys b' = Set_add (Bakery.keys b) k /\
  forall k', find k' (table b') =
             if jsString_eq_dec k' k then Some v else find k' (table b).
Proof.
  intros Hr E. apply bakery_returned, returned_coherent in Hr.
  destruct Hr as [R _ _]. unfold Bakery.set, CS.setItem in E. unfold table.
  pose proof (setItem_sound fuel k v _ (reachable_placed _ R)) as Hs.
  destruct (setItem fuel k v (CS.storage (Bakery.storage b))) as [[] h|h|];
    inversion E; subst b'.
  split; [reflexivity|]. exact (proj2 Hs).
Qed.

Lemma bakery_remove_find fuel k b b' :
  Bakery.returned b -> Bakery.remove fuel k b = Returned tt b' ->
  Bakery.keys b' = Set_delete (Bakery.keys b) k /\
  forall k', find k' (table b') =
             if jsString_eq_dec k' k then None else find k' (table b).
Proof.
  intros Hr E. apply bakery_returned, returned_coherent in Hr.
  destruct Hr as [R N K]. unfold Bakery.remove, CS.removeItem in E. unfold table.
  destruct (Set_has (CS.keyCache (Bakery.storage b)) k) eqn:Eh.
  - pose proof (removeItem_sound fuel k _ (reachable_placed _ R)) as Hs.
    destruct (removeItem fuel k (CS.storage (Bakery.storage b))) as [[] h|h|];
      inversion E; subst b'.
    split; [reflexivity|]. exact (proj2 Hs).
  - inversion E; subst b'. cbn [Bakery.storage].
    assert (Hk : ~ In k (CS.keyCache (Bakery.storage b))).
    { intros H. apply Set_has_in in H. congruence. }
    split.
    + unfold Bakery.keys, CS.keys, Set_delete. symmetry.
      apply forallb_filter_id, forallb_forall. intros x Hx.
      destruct (jsString_eq_dec x k); [subst; contradiction|reflexivity].
    + intros k'. destruct (jsString_eq_dec k' k) as [->|]; [|reflexivity].
      destruct (find k (CS.storage (Bakery.storage b))) eqn:F; [|reflexivity].
      elim Hk. apply K. congruence.
Qed.

Lemma bakery_set_returns fuel k v b :
  Bakery.never_cleared b -> (2 <= fuel)%nat ->
  exists b', Bakery.set fuel k v b = Returned tt b'.
Proof.
  intros Hn Hf. apply bakery_never_cleared, never_cleared_uncleared in Hn.
  destruct (uncleared_total fuel _ Hn Hf) as [Hs _].
  destruct (Hs k v) as [h Eh]. unfold Bakery.set, CS.setItem. rewrite Eh.
  eauto.
Qed.

Lemma bakery_remove_returns fuel k b :
  Bakery.never_cleared b -> (2 <= fuel)%nat ->
  exists b', Bakery.remove fuel k b = Returned tt b'.
Proof.
  intros Hn Hf. apply bakery_never_cleared, never_cleared_uncleared in Hn.
  destruct (uncleared_total fuel _ Hn Hf) as [_ Hs].
  destruct (Hs k) as [h Eh]. unfold Bakery.remove, CS.removeItem. rewrite Eh.
  destruct (Set_has _ k); eauto.
Qed.

Lemma never_cleared_bakery_returned b :
  Bakery.never_cleared b -> Bakery.returned b.
Proof.
  induction 1.
  - now apply Bakery.ret_constructor.
  - eapply Bakery.ret_set; eauto.
  - now apply Bakery.ret_get.
  - eapply Bakery.ret_remove; eauto.
Qed.

(** X17. Through [Bakery] the store is a map from keys to values: after a
    [set] that returns, [get] of the key gives the value set and every other
    key reads as before; after a [remove] that returns, [get] of the key
    gives null and every other key reads as before; [get] changes nothing;
    and after [clear] every key reads null and [keys] is empty. *)
Theorem bakery_is_a_map b :
  Bakery.returned b ->
  (forall fuel k v b', Bakery.set fuel k v b = Returned tt b' ->
     fst (Bakery.get k b') = Some v /\
     forall k', k' <> k -> fst (Bakery.get k' b') = fst (Bakery.get k' b)) /\
  (forall fuel k b', Bakery.remove fuel k b = Returned tt b' ->
     fst (Bakery.get k b') = None /\
     forall k', k' <> k -> fst (Bakery.get k' b') = fst (Bakery.get k' b)) /\
  (forall k, snd (Bakery.get k b) = b) /\
  (forall k, fst (Bakery.get k (Bakery.clear b)) = None) /\
  Bakery.keys (Bakery.clear b) = [].
Proof.
  intros Hr. split; [|split; [|split; [|split]]].
  - intros fuel k v b' E.
    pose proof (Bakery.ret_set fuel k v b b' Hr E) as Hr'.
    destruct (bakery_set_find fuel k v b b' Hr E) as [_ Hf].
    split; [|intros k' Hk]; rewrite !bakery_get by assumption; cbn [fst];
      rewrite Hf; destruct (jsString_eq_dec _ k); congruence.
  - intros fuel k b' E.
    pose proof (Bakery.ret_remove fuel k b b' Hr E) as Hr'.
    destruct (bakery_remove_find fuel k b b' Hr E) as [_ Hf].
    split; [|intros k' Hk]; rewrite !bakery_get by assumption; cbn [fst];
      rewrite Hf; destruct (jsString_eq_dec _ k); congruence.
  - intros k. now rewrite bakery_get.
  - intros k. rewrite (bakery_get k _ (Bakery.ret_clear b Hr)). cbn [fst].
    apply empty_find; [|reflexivity].
    exact (coh_reachable _ (returned_coherent _ (bakery_returned _ (Bakery.ret_clear b Hr)))).
  - reflexivity.
Qed.

Lemma bakery_is_a_map_witness :
  let b := Bakery.mk (CS.mk (after [SetItem "a" "1"]) [str "a"]) in
  Bakery.returned b /\
  (forall fuel k v b', Bakery.set fuel k v b = Returned tt b' ->
     fst (Bakery.get k b') = Some v /\
     forall k', k' <> k -> fst (Bakery.get k' b') = fst (Bakery.get k' b)) /\
  (forall fuel k b', Bakery.remove fuel k b = Returned tt b' ->
     fst (Bakery.get k b') = None /\
     forall k', k' <> k -> fst (Bakery.get k' b') = fst (Bakery.get k' b)) /\
  (forall k, snd (Bakery.get k b) = b) /\
  (forall k, fst (Bakery.get k (Bakery.clear b)) = None) /\
  Bakery.keys (Bakery.clear b) = [].
Proof.
  intros b.
  assert (Hr : Bakery.returned b).
  { apply (Bakery.ret_set 2 (str "a") (str "1") (Bakery.mk (CS.mk default_table []))).
    - apply Bakery.ret_constructor. reflexivity.
    - vm_compute. reflexivity. }
  split; [exact Hr|]. exact (bakery_is_a_map b Hr).
Defined.

(** X18. A [Bakery] that was never cleared does not throw: with fuel for one
    rebuild, [set] and [remove] return for every key and value. *)
Theorem bakery_never_throws_before_clear fuel b :
  Bakery.never_cleared b -> (2 <= fuel)%nat ->
  (forall k v, exists b', Bakery.set fuel k v b = Returned tt b') /\
  (forall k, exists b', Bakery.remove fuel k b = Returned tt b').
Proof.
  intros Hn Hf. split.
  - intros k v. now apply bakery_set_returns.
  - intros k. now apply bakery_remove_returns.
Qed.

Lemma bakery_never_throws_before_clear_witness :
  let b := Bakery.mk (CS.mk (after [SetItem "a" "1"]) [str "a"]) in
  Bakery.never_cleared b /\
  (forall k v, exists b', Bakery.set 2 k v b = Returned tt b') /\
  (forall k, exists b', Bakery.remove 2 k b = Returned tt b').
Proof.
  intros b.
  assert (Hn : Bakery.never_cleared b).
  { apply (Bakery.nc_set 2 (str "a") (str "1") (Bakery.mk (CS.mk default_table []))).
    - apply Bakery.nc_constructor. reflexivity.
    - vm_compute. reflexivity. }
  split; [exact Hn|]. exact (bakery_never_throws_before_clear 2 b Hn (le_n 2)).
Defined.

(** X19. [keys] of a [Bakery] is in the order of first insertion: setting
    new, distinct keys one after the other on a [Bakery] that was never
    cleared returns, appends them to [keys] in that order, makes each of
    them read the value set and leaves the other keys as they read
    before. *)
Theorem bakery_keys_in_insertion_order fuel ks v b :
  Bakery.never_cleared b -> (2 <= fuel)%nat ->
  NoDup ks -> (forall k, In k ks -> ~ In k (Bakery.keys b)) ->
  exists b',
    Bakery.set_all fuel ks v b = Returned tt b' /\
    Bakery.keys b' = Bakery.keys b ++ ks /\
    (forall k, In k ks -> fst (Bakery.get k b') = Some v) /\
    (forall k, ~ In k ks -> fst (Bakery.get k b') = fst (Bakery.get k b)).
Proof.
  intros Hn Hf Hd. revert b Hn.
  induction Hd as [|k ks Hk Hd IH]; intros b Hn Hnew.
  - exists b. cbn [Bakery.set_all]. rewrite app_nil_r.
    split; [reflexivity|]. split; [reflexivity|]. split; [intros k []|auto].
  - pose proof (never_cleared_bakery_returned b Hn) as Hr.
    destruct (bakery_set_returns fuel k v b Hn Hf) as [b1 E1].
    destruct (bakery_set_find fuel k v b b1 Hr E1) as [Hk1 Hf1].
    pose proof (Bakery.nc_set fuel k v b b1 Hn E1) as Hn1.
    pose proof (never_cleared_bakery_returned b1 Hn1) as Hr1.
    assert (Hadd : Bakery.keys b1 = Bakery.keys b ++ [k]).
    { rewrite Hk1. unfold Set_add. destruct (Set_has _ k) eqn:Eh; [|reflexivity].
      apply Set_has_in in Eh. elim (Hnew k); [now left|exact Eh]. }
    destruct (IH b1 Hn1) as (b' & E' & Hk' & Hin & Hout).
    { intros k' Hk'. rewrite Hadd, in_app_iff. cbn [In].
      intros [H|[H|[]]].
      - apply (Hnew k'); [now right|exact H].
      - subst k'. contradiction. }
    exists b'. cbn [Bakery.set_all]. rewrite E1.
    split; [exact E'|]. split; [|split].
    + rewrite Hk', Hadd, <- app_assoc. reflexivity.
    + intros k' [<-|Hk'']; [|now apply Hin].
      rewrite (Hout k Hk), bakery_get by assumption. cbn [fst].
      rewrite Hf1. now destruct (jsString_eq_dec k k).
    + intros k' Hk''. rewrite Hout by (intros H; apply Hk''; now right).
      rewrite !bakery_get by assumption. cbn [fst]. rewrite Hf1.
      destruct (jsString_eq_dec k' k) as [->|]; [|reflexivity].
      elim Hk''. now left.
Qed.

Lemma bakery_keys_in_insertion_order_witness :
  let b := Bakery.mk (CS.mk (after [SetItem "a" "1"]) [str "a"]) in
  let ks := [str "c"; str "b"] in
  Bakery.never_cleared b /\
  exists b',
    Bakery.set_all 2 ks (str "2") b = Returned tt b' /\
    Bakery.keys b' = Bakery.keys b ++ ks /\
    (forall k, In k ks -> fst (Bakery.get k b') = Some (str "2")) /\
    (forall k, ~ In k ks -> fst (Bakery.get k b') = fst (Bakery.get k b)).
Proof.
  intros b ks.
  assert (Hn : Bakery.never_cleared b).
  { apply (Bakery.nc_set 2 (str "a") (str "1") (Bakery.mk (CS.mk default_table []))).
    - apply Bakery.nc_constructor. reflexivity.
    - vm_compute. reflexivity. }
  split; [exact Hn|].
  apply (bakery_keys_in_insertion_order 2 ks (str "2") b Hn (le_n 2)).
  - repeat constructor; cbn [In]; intros H; repeat destruct H as [H|H];
      try discriminate H; exact H.
  - intros k Hk [H|[]]. subst k. repeat destruct Hk as [Hk|Hk];
      try discriminate Hk; exact Hk.
Defined.
